(** * Offline cache controller of the Shine catalog (service worker)

    A shallow embedding of the three listeners of the service worker
    (install, activate, fetch) over an explicit model of the browser's
    cache storage, the network and the promises the listeners hand to
    [event.waitUntil] and [event.respondWith]. *)

From Stdlib Require Import Ascii String List ZArith Bool Arith Lia.
Import ListNotations.
Open Scope string_scope.
Open Scope list_scope.

(** ** Constants of the worker *)

Definition CACHE_NAME : string := "angaza-creatives-v1".

Definition urlsToCache : list string :=
  [ "/"; "/static/css/style.css"; "/static/js/main.js";
    "/static/images/logo.jpeg" ].

(** ** Strings *)

(** [String.prototype.startsWith] *)
Definition startsWith (s pre : string) : bool := String.prefix pre s.

(** [String.prototype.includes]: [needle] occurs somewhere in [s]. *)
Fixpoint includes (s needle : string) : bool :=
  String.prefix needle s ||
  match s with
  | EmptyString => false
  | String _ s' => includes s' needle
  end.


(** ** Requests and responses *)

Record Request := mkRequest {
  method : string;
  url : string;
  mode : string
}.

Record Response := mkResponse {
  status : Z;
  body : string
}.

(** [Response.ok]: the status is in the range 200-299. *)
Definition ok (r : Response) : bool :=
  (200 <=? status r)%Z && (status r <=? 299)%Z.

(** [Response.clone()]: an independent copy with the same content. *)
Definition clone (r : Response) : Response :=
  {| status := status r; body := body r |}.

(** ** Cache storage

    A cache (bucket) maps request URLs to stored responses; the cache
    storage of the origin maps bucket names to buckets and keeps them in
    creation order, which is the order [caches.keys()] lists them in and
    [caches.match] searches them in. URLs are taken as the browser has
    resolved them: one resource is named by one string. *)

Definition Cache := list (string * Response).
Definition CacheStorage := list (string * Cache).

Section Assoc.
Context {V : Type}.

Fixpoint assoc_get (k : string) (l : list (string * V)) : option V :=
  match l with
  | [] => None
  | (k', v) :: l' => if k' =? k then Some v else assoc_get k l'
  end.

Definition assoc_has (k : string) (l : list (string * V)) : bool :=
  match assoc_get k l with Some _ => true | None => false end.

Definition assoc_remove (k : string) (l : list (string * V))
  : list (string * V) :=
  filter (fun e => negb (fst e =? k)) l.

(** Replace the value under [k] where it is, if [k] is present. *)
Fixpoint assoc_update (k : string) (f : V -> V) (l : list (string * V))
  : list (string * V) :=
  match l with
  | [] => []
  | (k', v) :: l' =>
      if k' =? k then (k', f v) :: l' else (k', v) :: assoc_update k f l'
  end.
End Assoc.

(** [Cache.put]: an entry already stored under the key is dropped and the
    new one is added. *)
Definition bucket_put (key : string) (r : Response) (c : Cache) : Cache :=
  assoc_remove key c ++ [(key, r)].

Definition bucket_put_all (entries : list (string * Response)) (c : Cache)
  : Cache :=
  fold_left (fun acc e => bucket_put (fst e) (snd e) acc) entries c.

(** [CacheStorage.match]: the first bucket, in creation order, that has an
    entry for the key answers. *)
Fixpoint storage_match (key : string) (st : CacheStorage) : option Response :=
  match st with
  | [] => None
  | (_, c) :: st' =>
      match assoc_get key c with
      | Some r => Some r
      | None => storage_match key st'
      end
  end.

Definition bucket (name : string) (st : CacheStorage) : option Cache :=
  assoc_get name st.

Definition bucket_names (st : CacheStorage) : list string := map fst st.

(** Bucket names are unique, as in any map. *)
Definition wf_storage (st : CacheStorage) : Prop := NoDup (bucket_names st).

(** ** The world the worker runs in *)

Inductive Error :=
| NetworkFailure          (* fetch found no response *)
| BadResponse             (* addAll got a response it does not take *)
| StorageFailure.         (* the storage refused an operation *)

Inductive Event :=
| EvLog (msg : string)
| EvLogError (msg : string) (e : Error)
| EvNetwork (u : string)
| EvOpen (name : string)
| EvKeys
| EvDelete (name : string)
| EvAddAll (name : string) (urls : list string)
| EvPut (name key : string)
| EvMatch (key : string)
| EvClone (u : string).

(** A continuation the listener left with nobody waiting for it: the store
    [cache => { cache.put(request, copy) }] given to the promise of
    [caches.open]; [name] is the handle the open fulfilled with. *)
Inductive Task :=
| StoreTask (name : string) (request : Request) (copy : Response).

Record World := mkWorld {
  storage : CacheStorage;
  trace : list Event;
  pending : list Task;
  skipped_waiting : bool;
  clients_claimed : bool
}.

(** What the worker does not decide: the answers of the network and of the
    storage. [delete_time] is the moment, counted from the start of the
    activate phase, at which the deletion of a bucket settles. *)
Record Env := mkEnv {
  network : string -> option Response;
  delete_ok : string -> bool;
  delete_time : string -> nat;
  put_ok : string -> string -> bool
}.

Definition set_storage (st : CacheStorage) (w : World) : World :=
  {| storage := st; trace := trace w; pending := pending w;
     skipped_waiting := skipped_waiting w;
     clients_claimed := clients_claimed w |}.

Definition emit (e : Event) (w : World) : World :=
  {| storage := storage w; trace := trace w ++ [e]; pending := pending w;
     skipped_waiting := skipped_waiting w;
     clients_claimed := clients_claimed w |}.

Definition emit_all (es : list Event) (w : World) : World :=
  fold_left (fun acc e => emit e acc) es w.

Definition detach (t : Task) (w : World) : World :=
  {| storage := storage w; trace := trace w; pending := pending w ++ [t];
     skipped_waiting := skipped_waiting w;
     clients_claimed := clients_claimed w |}.

Definition set_pending (ts : list Task) (w : World) : World :=
  {| storage := storage w; trace := trace w; pending := ts;
     skipped_waiting := skipped_waiting w;
     clients_claimed := clients_claimed w |}.

(** [self.skipWaiting()] and [self.clients.claim()] *)
Definition skipWaiting (w : World) : World :=
  {| storage := storage w; trace := trace w; pending := pending w;
     skipped_waiting := true;
     clients_claimed := clients_claimed w |}.

Definition claim (w : World) : World :=
  {| storage := storage w; trace := trace w; pending := pending w;
     skipped_waiting := skipped_waiting w;
     clients_claimed := true |}.

(** ** Promises

    A promise is run to its settlement: it either fulfils with a value or
    rejects with an error, and changes the world on the way. *)

Inductive Outcome (A : Type) :=
| Fulfilled (a : A)
| Rejected (e : Error).
Arguments Fulfilled {A} a.
Arguments Rejected {A} e.

Definition Promise (A : Type) : Type := Env -> World -> Outcome A * World.

Definition resolve {A} (a : A) : Promise A := fun _ w => (Fulfilled a, w).
Definition reject {A} (e : Error) : Promise A := fun _ w => (Rejected e, w).

(** [p.then(f)] *)
Definition then_ {A B} (p : Promise A) (f : A -> Promise B) : Promise B :=
  fun env w =>
    match p env w with
    | (Fulfilled a, w') => f a env w'
    | (Rejected e, w') => (Rejected e, w')
    end.

(** [p.catch(h)] *)
Definition catch_ {A} (p : Promise A) (h : Error -> Promise A) : Promise A :=
  fun env w =>
    match p env w with
    | (Fulfilled a, w') => (Fulfilled a, w')
    | (Rejected e, w') => h e env w'
    end.

Notation "x <- p ;; q" := (then_ p (fun x => q))
  (at level 61, p at next level, right associativity).
Notation "p ;;; q" := (then_ p (fun _ => q))
  (at level 61, right associativity).

(** ** The browser's operations *)

Definition console_log (msg : string) : Promise unit :=
  fun _ w => (Fulfilled tt, emit (EvLog msg) w).

Definition console_log_error (msg : string) (e : Error) : Promise unit :=
  fun _ w => (Fulfilled tt, emit (EvLogError msg e) w).

(** [fetch(request)]: rejects when the network gives no response. *)
Definition fetch (u : string) : Promise Response :=
  fun env w =>
    let w' := emit (EvNetwork u) w in
    match network env u with
    | Some r => (Fulfilled r, w')
    | None => (Rejected NetworkFailure, w')
    end.

(** [caches.open(name)]: creates the bucket when it is absent; the handle
    it fulfils with is the bucket's name. *)
Definition caches_open (name : string) : Promise string :=
  fun _ w =>
    let w' := emit (EvOpen name) w in
    if assoc_has name (storage w')
    then (Fulfilled name, w')
    else (Fulfilled name, set_storage (storage w' ++ [(name, [])]) w').

(** [caches.keys()] *)
Definition caches_keys : Promise (list string) :=
  fun _ w => (Fulfilled (bucket_names (storage w)), emit EvKeys w).

(** [caches.delete(name)]: fulfils with whether the bucket existed. *)
Definition caches_delete (name : string) : Promise bool :=
  fun env w =>
    let w' := emit (EvDelete name) w in
    if delete_ok env name
    then (Fulfilled (assoc_has name (storage w')),
          set_storage (assoc_remove name (storage w')) w')
    else (Rejected StorageFailure, w').

(** [caches.match(request)] *)
Definition caches_match (key : string) : Promise (option Response) :=
  fun _ w => (Fulfilled (storage_match key (storage w)), emit (EvMatch key) w).

(** [cache.put(request, response)] on the bucket behind the handle. *)
Definition cache_put (name key : string) (r : Response) : Promise unit :=
  fun env w =>
    let w' := emit (EvPut name key) w in
    if put_ok env name key
    then (Fulfilled tt,
          set_storage (assoc_update name (bucket_put key r) (storage w')) w')
    else (Rejected StorageFailure, w').

(** A response [cache.addAll] takes: an ok status, and not 206 (partial
    content). *)
Definition addAll_accepts (r : Response) : bool :=
  ok r && negb (status r =? 206)%Z.

(** The responses [cache.addAll] would store: every URL must be fetched
    with a status it takes and be accepted by the storage. *)
Fixpoint addAll_entries (env : Env) (name : string) (urls : list string)
  : Outcome (list (string * Response)) :=
  match urls with
  | [] => Fulfilled []
  | u :: urls' =>
      match network env u with
      | None => Rejected NetworkFailure
      | Some r =>
          if negb (addAll_accepts r) then Rejected BadResponse
          else if negb (put_ok env name u) then Rejected StorageFailure
          else match addAll_entries env name urls' with
               | Fulfilled es => Fulfilled ((u, r) :: es)
               | Rejected e => Rejected e
               end
      end
  end.

(** [cache.addAll(urls)]: all the URLs are requested; the entries are
    stored together, or none is. *)
Definition cache_addAll (name : string) (urls : list string) : Promise unit :=
  fun env w =>
    let w' := emit_all (map EvNetwork urls) (emit (EvAddAll name urls) w) in
    match addAll_entries env name urls with
    | Fulfilled es =>
        (Fulfilled tt,
         set_storage (assoc_update name (bucket_put_all es) (storage w')) w')
    | Rejected e => (Rejected e, w')
    end.

(** ** Install *)

Definition install_listener : Promise unit :=
  fun env w =>
    let '(p, w') :=
      catch_
        (cache <- caches_open CACHE_NAME ;;
         console_log "Opened cache" ;;;
         cache_addAll cache urlsToCache)
        (fun err => console_log_error "Cache install failed:" err)
        env w in
    (p, skipWaiting w').

(** ** Activate

    The promises [Promise.all] waits on are followed in time: each carries
    the moment it settles at. *)

Record Settled (A : Type) := mkSettled {
  settled_at : nat;
  outcome : Outcome A
}.
Arguments mkSettled {A} _ _.
Arguments settled_at {A} _.
Arguments outcome {A} _.

(** A value that is not a promise counts as fulfilled from the start. *)
Definition plain {A} (a : A) : Settled A :=
  {| settled_at := 0; outcome := Fulfilled a |}.

Definition is_rejected {A} (p : Settled A) : bool :=
  match outcome p with Rejected _ => true | Fulfilled _ => false end.

(** The rejection that comes first in time (the earlier element on a tie). *)
Fixpoint first_rejection {A} (ps : list (Settled A)) : option (nat * Error) :=
  match ps with
  | [] => None
  | p :: ps' =>
      match outcome p, first_rejection ps' with
      | Fulfilled _, r => r
      | Rejected e, None => Some (settled_at p, e)
      | Rejected e, Some (t', e') =>
          if Nat.leb (settled_at p) t' then Some (settled_at p, e) else Some (t', e')
      end
  end.

Fixpoint fulfilled_values {A} (ps : list (Settled A)) : list A :=
  match ps with
  | [] => []
  | p :: ps' =>
      match outcome p with
      | Fulfilled a => a :: fulfilled_values ps'
      | Rejected _ => fulfilled_values ps'
      end
  end.

Definition latest {A} (ps : list (Settled A)) : nat :=
  fold_right (fun p t => Nat.max (settled_at p) t) 0 ps.

(** [Promise.all]: rejects as soon as one element rejects, with that
    element's error; fulfils, once all have fulfilled, with their values. *)
Definition Promise_all {A} (ps : list (Settled A)) : Settled (list A) :=
  match first_rejection ps with
  | Some (t, e) => {| settled_at := t; outcome := Rejected e |}
  | None => {| settled_at := latest ps; outcome := Fulfilled (fulfilled_values ps) |}
  end.

(** [Array.prototype.map] with a callback that acts on the world. *)
Fixpoint array_map {A B} (f : A -> Env -> World -> B * World) (l : list A)
  (env : Env) (w : World) : list B * World :=
  match l with
  | [] => ([], w)
  | a :: l' =>
      let '(b, w1) := f a env w in
      let '(bs, w2) := array_map f l' env w1 in
      (b :: bs, w2)
  end.

(** The callback of [cacheNames.map]: the deletion of a stale bucket, or
    [undefined] ([None]) for the current one. *)
Definition delete_if_stale (cacheName : string) (env : Env) (w : World)
  : Settled (option bool) * World :=
  if negb (cacheName =? CACHE_NAME) then
    let w1 := emit (EvLog ("Deleting old cache: " ++ cacheName)%string) w in
    match caches_delete cacheName env w1 with
    | (Fulfilled b, w2) =>
        ({| settled_at := delete_time env cacheName;
            outcome := Fulfilled (Some b) |}, w2)
    | (Rejected e, w2) =>
        ({| settled_at := delete_time env cacheName;
            outcome := Rejected e |}, w2)
    end
  else (plain None, w).

(** The listener: what it hands to [event.waitUntil], and the world once
    every deletion it started has settled. *)
Definition activate_listener (env : Env) (w : World)
  : Settled (list (option bool)) * World :=
  let '(p, w') :=
    match caches_keys env w with
    | (Fulfilled cacheNames, w1) =>
        let '(ps, w2) := array_map delete_if_stale cacheNames env w1 in
        (Promise_all ps, w2)
    | (Rejected e, w1) => ({| settled_at := 0; outcome := Rejected e |}, w1)
    end in
  (p, claim w').

(** The deletions the activate phase starts on a storage. *)
Definition stale_names (st : CacheStorage) : list string :=
  filter (fun n => negb (n =? CACHE_NAME)) (bucket_names st).

(** ** Fetch *)

(** What the listener does with the event: it returns without calling
    [event.respondWith], or it responds with a promise, here run to its
    settlement ([None] is [undefined]). *)
Inductive Interception :=
| PassThrough
| RespondWith (p : Outcome (option Response)).

(** The [.then] callback of the network fetch. For a response to cache it
    calls [caches.open] and leaves the store to the promise it gets,
    without waiting for it. *)
Definition on_response (request : Request) (response : Response)
  : Promise (option Response) :=
  fun env w =>
    let responseClone := clone response in
    let w1 := emit (EvClone (url request)) w in
    let w2 :=
      if (status response =? 200)%Z && includes (url request) "/static/"
      then
        match caches_open CACHE_NAME env w1 with
        | (Fulfilled cache, w') =>
            detach (StoreTask cache request responseClone) w'
        | (Rejected _, w') => w'
        end
      else w1 in
    (Fulfilled (Some response), w2).

(** The [.catch] callback of the network fetch. *)
Definition on_failure (request : Request) : Promise (option Response) :=
  response <- caches_match (url request) ;;
  match response with
  | Some r => resolve (Some r)
  | None =>
      if mode request =? "navigate" then caches_match "/" else resolve None
  end.

Definition fetch_listener (request : Request) (env : Env) (w : World)
  : Interception * World :=
  if negb (method request =? "GET") then (PassThrough, w)
  else if startsWith (url request) "chrome-extension://" then (PassThrough, w)
  else
    let '(p, w') :=
      catch_
        (response <- fetch (url request) ;; on_response request response)
        (fun _ => on_failure request)
        env w in
    (RespondWith p, w').

(** A detached store, when the browser gets to run it. The promise of
    [cache.put] is dropped by the callback, so nothing sees its outcome. *)
Definition run_task (t : Task) (env : Env) (w : World) : World :=
  match t with
  | StoreTask cache request copy =>
      snd (cache_put cache (url request) copy env w)
  end.

(** The world once every detached store has run. *)
Definition settle_pending (env : Env) (w : World) : World :=
  fold_left (fun acc t => run_task t env acc) (pending w) (set_pending [] w).

(** ** The fallback as the specification words it: three steps on the
    bucket of the current generation. *)
Definition spec_fallback (request : Request) (st : CacheStorage)
  : option Response :=
  let current := match bucket CACHE_NAME st with Some c => c | None => [] end in
  match assoc_get (url request) current with
  | Some r => Some r
  | None =>
      if mode request =? "navigate" then assoc_get "/" current else None
  end.

(** The fallback as the listener computes it: [caches.match] asks the whole
    storage of the origin. *)
Definition code_fallback (request : Request) (st : CacheStorage)
  : option Response :=
  match storage_match (url request) st with
  | Some r => Some r
  | None =>
      if mode request =? "navigate" then storage_match "/" st else None
  end.

(** ** Activation, described on the names alone *)

Definition stale (n : string) : bool := negb (n =? CACHE_NAME).

(** The deletion of [n] is started and the storage carries it out. *)
Definition deleted (env : Env) (n : string) : bool :=
  stale n && delete_ok env n.

(** The deletion of [n] is started and the storage refuses it. *)
Definition fails (env : Env) (n : string) : bool :=
  stale n && negb (delete_ok env n).

(** The moment the last of the deletions of the stale names settles. *)
Definition last_deletion (env : Env) (names : list string) : nat :=
  fold_right (fun n t => if stale n then Nat.max (delete_time env n) t else t)
    0 names.

(** The activate phase as the specification words it: it does not fail
    when a deletion does, and it completes only once every deletion it
    started has settled. *)
Definition activation_waits_and_succeeds (env : Env) (w : World) : Prop :=
  let p := fst (activate_listener env w) in
  is_rejected p = false
  /\ forall n, In n (stale_names (storage w)) ->
       delete_time env n <= settled_at p.

(** The first refusal among the deletions of [names], in time. *)
Fixpoint first_failure (env : Env) (names : list string)
  : option (nat * Error) :=
  match names with
  | [] => None
  | n :: ns =>
      if fails env n then
        match first_failure env ns with
        | None => Some (delete_time env n, StorageFailure)
        | Some (t', e') =>
            if Nat.leb (delete_time env n) t'
            then Some (delete_time env n, StorageFailure)
            else Some (t', e')
        end
      else first_failure env ns
  end.

(** What the deletions of [names] write to the console and ask of the
    storage. *)
Definition deletion_events (names : list string) : list Event :=
  flat_map
    (fun n =>
       if stale n
       then [EvLog ("Deleting old cache: " ++ n)%string; EvDelete n]
       else [])
    names.

(** ** The fetch path, described on the request and the response *)

(** The test of the [.then] callback: status 200 and a URL that has
    ["/static/"] in it. *)
Definition cacheable (request : Request) (response : Response) : bool :=
  (status response =? 200)%Z && includes (url request) "/static/".

(** Once the detached stores have run, the bucket of the current
    generation has an entry for the request, with the body of [r]. *)
Definition stored_in_current_bucket (request : Request) (r : Response)
  (st : CacheStorage) : Prop :=
  exists c e,
    bucket CACHE_NAME st = Some c
    /\ assoc_get (url request) c = Some e
    /\ body e = body r.

(** The world when the listener has handled the request and the stores it
    detached have run. *)
Definition handled (request : Request) (env : Env) (w : World) : World :=
  settle_pending env (snd (fetch_listener request env w)).

(** ** Install, described on the seed list *)

(** The seed asset is fetched with a status [addAll] takes (ok, and not
    206) and the storage takes it. *)
Definition seed_ok (env : Env) (u : string) : bool :=
  match network env u with
  | Some r => addAll_accepts r && put_ok env CACHE_NAME u
  | None => false
  end.

Definition all_seeds_ok (env : Env) : bool :=
  forallb (seed_ok env) urlsToCache.

(** The world after install has run twice, starting with no bucket. *)
Definition installed_twice (env : Env) : World :=
  snd (install_listener env
         (snd (install_listener env
                 {| storage := []; trace := []; pending := [];
                    skipped_waiting := false; clients_claimed := false |}))).

(** Install as the specification words it: every seed asset that could be
    reached is in the bucket afterwards. *)
Definition reachable_seeds_stored (env : Env) : Prop :=
  forall u r,
    In u urlsToCache -> network env u = Some r -> ok r = true ->
    exists c,
      bucket CACHE_NAME (storage (installed_twice env)) = Some c
      /\ assoc_get u c = Some r.

(** ** Sample worlds and environments *)

Definition empty_world : World :=
  {| storage := []; trace := []; pending := [];
     skipped_waiting := false; clients_claimed := false |}.

Definition world_of (st : CacheStorage) : World :=
  {| storage := st; trace := []; pending := [];
     skipped_waiting := false; clients_claimed := false |}.

Definition page (u : string) : Response :=
  {| status := 200; body := ("content of " ++ u)%string |}.

(** Every URL is served with status 200 and the storage never refuses. *)
Definition online : Env :=
  {| network := fun u => Some (page u);
     delete_ok := fun _ => true;
     delete_time := fun _ => 1;
     put_ok := fun _ _ => true |}.

(** No URL can be reached. *)
Definition offline : Env :=
  {| network := fun _ => None;
     delete_ok := fun _ => true;
     delete_time := fun _ => 1;
     put_ok := fun _ _ => true |}.

(** The logo is missing, the other seed assets are served. *)
Definition logo_missing : Env :=
  {| network := fun u =>
       if u =? "/static/images/logo.jpeg" then None else Some (page u);
     delete_ok := fun _ => true;
     delete_time := fun _ => 1;
     put_ok := fun _ _ => true |}.

(** The storage refuses to delete the oldest bucket, at once; the other
    deletions take their time and succeed. *)
Definition stubborn_v0 : Env :=
  {| network := fun u => Some (page u);
     delete_ok := fun n => negb (n =? "angaza-creatives-v0");
     delete_time := fun n => if n =? "angaza-creatives-v0" then 1 else 5;
     put_ok := fun _ _ => true |}.

(** The storage refuses every write. *)
Definition storage_full : Env :=
  {| network := fun u => Some (page u);
     delete_ok := fun _ => true;
     delete_time := fun _ => 1;
     put_ok := fun _ _ => false |}.

(** The root document is answered with status 206 (partial content), the
    other URLs with status 200. *)
Definition root_partial : Env :=
  {| network := fun u =>
       if u =? "/" then Some {| status := 206; body := "part of /" |}
       else Some (page u);
     delete_ok := fun _ => true;
     delete_time := fun _ => 1;
     put_ok := fun _ _ => true |}.

Definition three_generations : CacheStorage :=
  [ ("angaza-creatives-v0", [("/", page "/")]);
    ("angaza-creatives-beta", []);
    (CACHE_NAME, [("/", page "/")]) ].

(** The bucket of a later generation, filled by its install, next to the
    current one. *)
Definition next_generation_installed : CacheStorage :=
  [ (CACHE_NAME, []);
    ("angaza-creatives-v2",
     [("/static/js/main.js", page "/static/js/main.js")]) ].

Definition resource (u : string) : Request :=
  {| method := "GET"; url := u; mode := "no-cors" |}.

Definition navigate (u : string) : Request :=
  {| method := "GET"; url := u; mode := "navigate" |}.

Definition post_to (u : string) : Request :=
  {| method := "POST"; url := u; mode := "cors" |}.

(** ** Lookups in a bucket, and runs of the worker *)

(** The entries of the bucket [name]; none when there is no such bucket. *)
Definition content (name : string) (st : CacheStorage) : Cache :=
  match bucket name st with Some c => c | None => [] end.

(** [caches.open(name).then(cache => cache.match(key))], without the
    creation of the bucket. *)
Definition cache_lookup (name key : string) (st : CacheStorage)
  : option Response :=
  assoc_get key (content name st).

(** The bucket of the current generation is the only one, if any. *)
Definition only_current (st : CacheStorage) : Prop :=
  forall n, In n (bucket_names st) -> n = CACHE_NAME.

(** The events of the worker's life: the three listeners, and the browser
    running the stores the fetch listener detached. *)
Inductive Step :=
| DoInstall
| DoActivate
| DoFetch (request : Request)
| DoSettle.

Definition worker_step (env : Env) (s : Step) (w : World) : World :=
  match s with
  | DoInstall => snd (install_listener env w)
  | DoActivate => snd (activate_listener env w)
  | DoFetch request => snd (fetch_listener request env w)
  | DoSettle => settle_pending env w
  end.

(** A life of the worker; the network and the storage may answer
    differently at every step. *)
Definition worker_run (steps : list (Env * Step)) (w : World) : World :=
  fold_left (fun acc es => worker_step (fst es) (snd es) acc) steps w.

(** An entry worth serving offline: an ok status, under a seed URL or a
    URL with ["/static/"] in it. *)
Definition entry_clean (e : string * Response) : Prop :=
  ok (snd e) = true
  /\ (In (fst e) urlsToCache \/ includes (fst e) "/static/" = true).

Definition task_clean (t : Task) : Prop :=
  match t with
  | StoreTask name request copy =>
      name = CACHE_NAME
      /\ status copy = 200%Z
      /\ includes (url request) "/static/" = true
  end.

Definition clean (w : World) : Prop :=
  Forall entry_clean (content CACHE_NAME (storage w))
  /\ Forall task_clean (pending w).

(** * The page script (static/js/main.js) *)

Module PageScript.

(** ** formatPrice *)

(** [\d] *)
Definition is_digit (c : ascii) : bool :=
  (48 <=? nat_of_ascii c)%nat && (nat_of_ascii c <=? 57)%nat.

Definition is_dot (c : ascii) : bool := Ascii.eqb c ".".

(** The lookahead [(\d{3})+\.]: one group of three digits or more, then a
    dot. *)
Fixpoint triples_then_dot (s : string) : bool :=
  match s with
  | String a (String b (String c rest)) =>
      is_digit a && is_digit b && is_digit c &&
      (match rest with
       | String d _ => is_dot d
       | EmptyString => false
       end
       || triples_then_dot rest)
  | _ => false
  end.

(** [.replace(/\d(?=(\d{3})+\.)/g, '$&,')]: every digit that has a
    multiple of three digits and then a dot after it gets a comma. *)
Fixpoint group_thousands (s : string) : string :=
  match s with
  | EmptyString => EmptyString
  | String c s' =>
      if is_digit c && triples_then_dot s'
      then String c (String "," (group_thousands s'))
      else String c (group_thousands s')
  end.

(** [formatPrice(price, currencySymbol = '$')]. The number is handled by
    the engine's floating point: [fixed] is the text of
    [parseFloat(price).toFixed(2)]. *)
Definition formatPrice (fixed : string) (currencySymbol : option string)
  : string :=
  ((match currencySymbol with Some c => c | None => "$" end)
   ++ group_thousands fixed)%string.

(** Texts the properties of [formatPrice] are stated with. *)
Fixpoint all_digits (s : string) : bool :=
  match s with
  | EmptyString => true
  | String c s' => is_digit c && all_digits s'
  end.

Fixpoint no_digit (s : string) : bool :=
  match s with
  | EmptyString => true
  | String c s' => negb (is_digit c) && no_digit s'
  end.

Fixpoint no_dot (s : string) : bool :=
  match s with
  | EmptyString => true
  | String c s' => negb (is_dot c) && no_dot s'
  end.

Fixpoint remove_commas (s : string) : string :=
  match s with
  | EmptyString => EmptyString
  | String c s' =>
      if Ascii.eqb c "," then remove_commas s' else String c (remove_commas s')
  end.

(** A group of three digits. *)
Definition triple (t : string) : Prop :=
  String.length t = 3 /\ all_digits t = true.

Fixpoint flat (ts : list string) : string :=
  match ts with
  | [] => EmptyString
  | t :: ts' => (t ++ flat ts')%string
  end.

Fixpoint with_commas (ts : list string) : string :=
  match ts with
  | [] => EmptyString
  | t :: ts' => ("," ++ t ++ with_commas ts')%string
  end.

(** ** applyFilters *)

(** [URLSearchParams]: the name-value pairs of the query, in order. *)
Definition SearchParams := list (string * string).

Definition params_delete (name : string) (ps : SearchParams) : SearchParams :=
  filter (fun p => negb (fst p =? name)) ps.

Definition params_append (name value : string) (ps : SearchParams)
  : SearchParams :=
  ps ++ [(name, value)].

(** [set]: the first pair of that name takes the value and the others go;
    without such a pair, the pair is appended. *)
Fixpoint params_set (name value : string) (ps : SearchParams) : SearchParams :=
  match ps with
  | [] => [(name, value)]
  | (n, v) :: ps' =>
      if n =? name then (n, value) :: params_delete name ps'
      else (n, v) :: params_set name value ps'
  end.

Definition params_getAll (name : string) (ps : SearchParams) : list string :=
  map snd (filter (fun p => fst p =? name) ps).

(** What the script reads from the filter sidebar: the values of the
    checked boxes, in document order, and the two price inputs ([None]
    when the element is not on the page). *)
Record FilterForm := mkFilterForm {
  category_checked : list string;
  minPrice : option string;
  maxPrice : option string;
  cover_type_checked : list string
}.

(** [input && input.value ? set(name, input.value) : delete(name)] *)
Definition set_or_delete (name : string) (input : option string)
  (ps : SearchParams) : SearchParams :=
  match input with
  | Some value =>
      if negb (value =? "") then params_set name value ps
      else params_delete name ps
  | None => params_delete name ps
  end.

(** The search parameters of the URL the page is sent to, from those of
    the current location. *)
Definition applyFilters (form : FilterForm) (search : SearchParams)
  : SearchParams :=
  let url := params_delete "category" search in
  let url :=
    fold_left (fun acc cat => params_append "category" cat acc)
      (category_checked form) url in
  let url := set_or_delete "min_price" (minPrice form) url in
  let url := set_or_delete "max_price" (maxPrice form) url in
  let url := params_delete "cover_type" url in
  fold_left (fun acc type => params_append "cover_type" type acc)
    (cover_type_checked form) url.

Definition is_filter_name (n : string) : bool :=
  (n =? "category") || (n =? "min_price") || (n =? "max_price")
  || (n =? "cover_type").

(** What a price input contributes. *)
Definition price_values (input : option string) : list string :=
  match input with
  | Some value => if value =? "" then [] else [value]
  | None => []
  end.

(** ** debounce

    Time is counted in milliseconds. [timeout] is the timer the closure
    holds, when it is armed: the moment it fires at and the arguments its
    callback closes over. [fired] lists the calls of [func]. *)

Record Debounced (A : Type) := mkDebounced {
  clock : nat;
  timeout : option (nat * A);
  fired : list (nat * A)
}.
Arguments mkDebounced {A} _ _ _.
Arguments clock {A} _.
Arguments timeout {A} _.
Arguments fired {A} _.

(** [executedFunction(...args)]: the armed timer is cleared and a new one
    is set, [wait] from now. *)
Definition executedFunction {A} (wait : nat) (args : A) (d : Debounced A)
  : Debounced A :=
  {| clock := clock d;
     timeout := Some (clock d + wait, args);
     fired := fired d |}.

(** Time passes: the armed timer, when its moment comes, runs [later],
    which calls [func] with the arguments of the call that set it. *)
Definition elapse {A} (ms : nat) (d : Debounced A) : Debounced A :=
  let now := clock d + ms in
  match timeout d with
  | Some (at_, args) =>
      if (at_ <=? now)%nat
      then {| clock := now; timeout := None;
              fired := fired d ++ [(at_, args)] |}
      else {| clock := now; timeout := Some (at_, args); fired := fired d |}
  | None => {| clock := now; timeout := None; fired := fired d |}
  end.

(** Calls in quick succession: each comes [ms] after the one before. *)
Definition burst {A} (wait : nat) (calls : list (nat * A)) (d : Debounced A)
  : Debounced A :=
  fold_left
    (fun acc c => executedFunction wait (snd c) (elapse (fst c) acc))
    calls d.

(** Calls far apart: each is followed by a pause of [ms]. *)
Definition spaced {A} (wait : nat) (calls : list (A * nat)) (d : Debounced A)
  : Debounced A :=
  fold_left
    (fun acc c => elapse (snd c) (executedFunction wait (fst c) acc))
    calls d.

(** The arguments of the last call of a burst. *)
Definition last_call {A} (first : A) (calls : list (nat * A)) : A :=
  fold_left (fun _ c => snd c) calls first.

(** ** toggleWishlist *)

(** [DOMTokenList] *)
Definition classList_contains (t : string) (cl : list string) : bool :=
  existsb (String.eqb t) cl.

Definition classList_remove (t : string) (cl : list string) : list string :=
  filter (fun c => negb (c =? t)) cl.

Definition classList_add (t : string) (cl : list string) : list string :=
  if classList_contains t cl then cl else cl ++ [t].

(** The body of the server's answer. *)
Record WishlistData := mkWishlistData {
  success : bool;
  error : option string;
  wishlist_count : Z
}.

(** The answer to the POST: none that can be read as JSON, or the data. *)
Inductive Reply :=
| ReplyFailed
| ReplyJson (data : WishlistData).

(** The parts of the page the function acts on: the heart icon and its
    button, the toasts shown (message and type), the wishlist badge (text
    and display), the requests posted (URL and product). *)
Record Page := mkPage {
  icon_classes : list string;
  button_color : string;
  notifications : list (string * string);
  wishlist_badge : option (Z * string);
  posted : list (string * string)
}.

Definition showNotification (message type : string) (p : Page) : Page :=
  {| icon_classes := icon_classes p; button_color := button_color p;
     notifications := notifications p ++ [(message, type)];
     wishlist_badge := wishlist_badge p; posted := posted p |}.

Definition updateWishlistCount (count : Z) (p : Page) : Page :=
  {| icon_classes := icon_classes p; button_color := button_color p;
     notifications := notifications p;
     wishlist_badge := Some (count, if (0 <? count)%Z then "flex" else "none");
     posted := posted p |}.

Definition set_icon (cl : list string) (color : string) (p : Page) : Page :=
  {| icon_classes := cl; button_color := color;
     notifications := notifications p;
     wishlist_badge := wishlist_badge p; posted := posted p |}.

Definition post_request (u productId : string) (p : Page) : Page :=
  {| icon_classes := icon_classes p; button_color := button_color p;
     notifications := notifications p;
     wishlist_badge := wishlist_badge p;
     posted := posted p ++ [(u, productId)] |}.

(** [data.error || 'Error updating wishlist'] *)
Definition error_or (data : WishlistData) (default : string) : string :=
  match error data with
  | Some e => if e =? "" then default else e
  | None => default
  end.

Definition toggleWishlist (productId : string) (isAdding : bool)
  (reply : Reply) (p : Page) : Page :=
  let u := if isAdding then "/wishlist/add/" else "/wishlist/remove/" in
  let p := post_request u productId p in
  match reply with
  | ReplyJson data =>
      if success data then
        let p :=
          if isAdding then
            showNotification "Added to wishlist!" "success"
              (set_icon
                 (classList_add "fas" (classList_remove "far" (icon_classes p)))
                 "#ec4899" p)
          else
            showNotification "Removed from wishlist" "info"
              (set_icon
                 (classList_add "far" (classList_remove "fas" (icon_classes p)))
                 "" p) in
        updateWishlistCount (wishlist_count data) p
      else showNotification (error_or data "Error updating wishlist") "error" p
  | ReplyFailed => showNotification "Error updating wishlist" "error" p
  end.

(** The click on a wishlist button, with the answer the server gives to
    the request it posts. *)
Definition wishlist_click (productId : string) (reply : Reply) (p : Page)
  : Page :=
  let isAdding := classList_contains "far" (icon_classes p) in
  toggleWishlist productId isAdding reply p.

End PageScript.

(** * Properties *)

(** ** Strings *)

Lemma prefix_app (a b : string) : String.prefix a (a ++ b)%string = true.
Proof.
  induction a as [|c a IH]; simpl.
  - now destruct b.
  - destruct (Ascii.ascii_dec c c) as [_|n]; [exact IH | now elim n].
Qed.

Lemma prefix_inv (a s : string) :
  String.prefix a s = true -> exists b, s = (a ++ b)%string.
Proof.
  revert s; induction a as [|c a IH]; intros s H.
  - now exists s.
  - destruct s as [|d s]; simpl in H; [discriminate|].
    destruct (Ascii.ascii_dec c d) as [->|_]; [|discriminate].
    destruct (IH s H) as [b ->]. now exists b.
Qed.



Lemma includes_inv (s n : string) :
  includes s n = true -> exists a b, s = (a ++ n ++ b)%string.
Proof.
  induction s as [|c s IH]; cbn [includes]; intros H.
  - rewrite orb_false_r in H. apply prefix_inv in H as [b ->].
    now exists EmptyString, b.
  - apply orb_true_iff in H as [H|H].
    + apply prefix_inv in H as [b ->]. now exists EmptyString, b.
    + destruct (IH H) as (a & b & ->). now exists (String c a), b.
Qed.

(** ** Association lists *)

Section AssocFacts.
Context {V : Type}.
Implicit Types (l : list (string * V)) (k : string).

Lemma assoc_get_app k l l' :
  assoc_get k (l ++ l') =
  match assoc_get k l with Some v => Some v | None => assoc_get k l' end.
Proof.
  induction l as [|[k' v] l IH]; simpl; [reflexivity|].
  now destruct (k' =? k).
Qed.

Lemma assoc_get_remove_same k l : assoc_get k (assoc_remove k l) = None.
Proof.
  induction l as [|[k' v] l IH]; simpl; [reflexivity|].
  destruct (k' =? k) eqn:E; simpl; [exact IH|]. now rewrite E.
Qed.

Lemma assoc_get_update_same k (f : V -> V) l :
  assoc_get k (assoc_update k f l) = option_map f (assoc_get k l).
Proof.
  induction l as [|[k' v] l IH]; simpl; [reflexivity|].
  destruct (k' =? k) eqn:E; simpl; now rewrite E.
Qed.

Lemma assoc_update_names k (f : V -> V) l :
  map fst (assoc_update k f l) = map fst l.
Proof.
  induction l as [|[k' v] l IH]; simpl; [reflexivity|].
  destruct (k' =? k); simpl; [reflexivity | now rewrite IH].
Qed.

Lemma assoc_remove_names k l :
  map fst (assoc_remove k l) =
  filter (fun n => negb (n =? k)) (map fst l).
Proof.
  induction l as [|[k' v] l IH]; simpl; [reflexivity|].
  destruct (k' =? k); simpl; [exact IH | now rewrite IH].
Qed.

Lemma assoc_has_In k l : assoc_has k l = true <-> In k (map fst l).
Proof.
  unfold assoc_has.
  induction l as [|[k' v] l IH]; simpl; [split; [discriminate | tauto]|].
  destruct (String.eqb_spec k' k) as [->|n].
  - split; auto.
  - rewrite IH. split; [auto | intros [e|i]; [now elim n | exact i]].
Qed.
End AssocFacts.

Lemma bucket_put_get (key : string) (r : Response) (c : Cache) :
  assoc_get key (bucket_put key r c) = Some r.
Proof.
  unfold bucket_put. rewrite assoc_get_app, assoc_get_remove_same.
  simpl. now rewrite String.eqb_refl.
Qed.

(** ** Worlds *)

Lemma storage_emit_all (es : list Event) (w : World) :
  storage (emit_all es w) = storage w.
Proof.
  unfold emit_all. revert w.
  induction es as [|e es IH]; intros w; simpl; [reflexivity|].
  now rewrite IH.
Qed.

Lemma trace_emit_all (es : list Event) (w : World) :
  trace (emit_all es w) = trace w ++ es.
Proof.
  unfold emit_all. revert w.
  induction es as [|e es IH]; intros w; simpl.
  - now rewrite app_nil_r.
  - rewrite IH. simpl. now rewrite <- app_assoc.
Qed.

(** ** Install *)

(** One seed fetch that finds no response makes the whole [addAll] fail. *)
Lemma addAll_entries_fetch_fails (env : Env) (name u : string)
  (urls : list string) :
  In u urls -> network env u = None ->
  exists e, addAll_entries env name urls = Rejected e.
Proof.
  induction urls as [|u' urls IH]; intros Hin Hnet; [contradiction|].
  simpl. destruct Hin as [->|Hin].
  - rewrite Hnet. now eexists.
  - destruct (network env u') as [r|]; [|now eexists].
    destruct (negb (addAll_accepts r)); [now eexists|].
    destruct (negb (put_ok env name u')); [now eexists|].
    destruct (IH Hin Hnet) as [e ->]. now eexists.
Qed.

(** What install leaves when the seed operation fails: the bucket was
    opened and nothing else happened to the storage. *)
Lemma install_rejected_seed (env : Env) (w : World) (e : Error) :
  addAll_entries env CACHE_NAME urlsToCache = Rejected e ->
  install_listener env w =
  (Fulfilled tt,
   skipWaiting
     (emit (EvLogError "Cache install failed:" e)
        (emit_all (map EvNetwork urlsToCache)
           (emit (EvAddAll CACHE_NAME urlsToCache)
              (emit (EvLog "Opened cache")
                 (snd (caches_open CACHE_NAME env w))))))).
Proof.
  intros H.
  unfold install_listener, catch_, then_, cache_addAll, console_log,
    console_log_error, caches_open.
  destruct (assoc_has CACHE_NAME (storage (emit (EvOpen CACHE_NAME) w)));
    cbv zeta; rewrite H; reflexivity.
Qed.

Lemma install_fulfilled_seed (env : Env) (w : World)
  (es : list (string * Response)) :
  addAll_entries env CACHE_NAME urlsToCache = Fulfilled es ->
  install_listener env w =
  let w1 :=
    emit_all (map EvNetwork urlsToCache)
      (emit (EvAddAll CACHE_NAME urlsToCache)
         (emit (EvLog "Opened cache")
            (snd (caches_open CACHE_NAME env w)))) in
  (Fulfilled tt,
   skipWaiting
     (set_storage
        (assoc_update CACHE_NAME (bucket_put_all es) (storage w1)) w1)).
Proof.
  intros H.
  unfold install_listener, catch_, then_, cache_addAll, console_log,
    caches_open.
  destruct (assoc_has CACHE_NAME (storage (emit (EvOpen CACHE_NAME) w)));
    cbv zeta; rewrite H; reflexivity.
Qed.

(** C6: the promise install hands to [waitUntil] always fulfils, whatever
    the seed fetches do, and the worker signals [skipWaiting]. When a seed
    fetch finds no response, the seed operation fails as a group: nothing is
    stored by this install (the storage is as opening the bucket left it),
    and the failure is logged instead of being passed on. *)
Theorem install_always_fulfils (env : Env) (w : World) :
  fst (install_listener env w) = Fulfilled tt
  /\ skipped_waiting (snd (install_listener env w)) = true
  /\ forall u, In u urlsToCache -> network env u = None ->
       storage (snd (install_listener env w))
         = storage (snd (caches_open CACHE_NAME env w))
       /\ exists e,
            In (EvLogError "Cache install failed:" e)
               (trace (snd (install_listener env w))).
Proof.
  destruct (addAll_entries env CACHE_NAME urlsToCache) as [es|e] eqn:E.
  - rewrite (install_fulfilled_seed env w es E). cbv zeta.
    split; [reflexivity|]. split; [reflexivity|].
    intros u Hin Hnet.
    destruct (addAll_entries_fetch_fails env CACHE_NAME u _ Hin Hnet)
      as [e' He']. congruence.
  - rewrite (install_rejected_seed env w e E).
    split; [reflexivity|]. split; [reflexivity|].
    intros u _ _. split.
    + reflexivity.
    + exists e. cbn [snd trace skipWaiting emit].
      apply in_or_app. right. now left.
Qed.

(** ** Fetch: requests the listener leaves alone *)

(** C9: a request whose method is not GET is not intercepted: the listener
    returns without responding and leaves the world as it found it; no
    lookup, no store, no change to any bucket. *)
Theorem non_GET_bypass (request : Request) (env : Env) (w : World) :
  method request <> "GET" ->
  fetch_listener request env w = (PassThrough, w).
Proof.
  intros H. unfold fetch_listener.
  destruct (String.eqb_spec (method request) "GET") as [e|_];
    [now elim H | reflexivity].
Qed.

Lemma non_GET_bypass_witness :
  fetch_listener (post_to "/api/set-currency/") online
    (world_of three_generations)
  = (PassThrough, world_of three_generations).
Proof. apply non_GET_bypass. discriminate. Defined.

Lemma install_always_fulfils_witness :
  storage (snd (install_listener offline empty_world)) = [(CACHE_NAME, [])].
Proof.
  destruct (install_always_fulfils offline empty_world) as (_ & _ & H).
  destruct (H "/" (or_introl eq_refl) eq_refl) as [-> _]. reflexivity.
Defined.

(** ** Activate *)

Lemma filter_filter {A} (P Q : A -> bool) (l : list A) :
  filter P (filter Q l) = filter (fun x => Q x && P x) l.
Proof.
  induction l as [|a l IH]; simpl; [reflexivity|].
  destruct (Q a); simpl; [destruct (P a)|]; now rewrite IH.
Qed.

Lemma array_map_cons {A B} (f : A -> Env -> World -> B * World)
  (a : A) (l : list A) (env : Env) (w : World) :
  array_map f (a :: l) env w =
  (fst (f a env w) :: fst (array_map f l env (snd (f a env w))),
   snd (array_map f l env (snd (f a env w)))).
Proof.
  simpl. destruct (f a env w) as [b w1]. simpl.
  now destruct (array_map f l env w1).
Qed.

Section DeleteIfStale.
Variable env : Env.

Lemma delete_if_stale_storage (n : string) (w : World) :
  storage (snd (delete_if_stale n env w)) =
  if deleted env n then assoc_remove n (storage w) else storage w.
Proof.
  unfold delete_if_stale, deleted, stale, caches_delete.
  destruct (negb (n =? CACHE_NAME)); [|reflexivity].
  cbv zeta. now destruct (delete_ok env n).
Qed.

Lemma delete_if_stale_trace (n : string) (w : World) :
  trace (snd (delete_if_stale n env w)) = trace w ++ deletion_events [n].
Proof.
  unfold delete_if_stale, deletion_events, stale, caches_delete.
  simpl flat_map. rewrite app_nil_r.
  destruct (negb (n =? CACHE_NAME)); [|now rewrite app_nil_r].
  cbv zeta. destruct (delete_ok env n); simpl; now rewrite <- app_assoc.
Qed.

Lemma delete_if_stale_time (n : string) (w : World) :
  settled_at (fst (delete_if_stale n env w)) =
  if stale n then delete_time env n else 0.
Proof.
  unfold delete_if_stale, stale, caches_delete.
  destruct (negb (n =? CACHE_NAME)); [|reflexivity].
  cbv zeta. now destruct (delete_ok env n).
Qed.

Lemma delete_if_stale_outcome (n : string) (w : World) :
  if fails env n
  then outcome (fst (delete_if_stale n env w)) = Rejected StorageFailure
  else exists v, outcome (fst (delete_if_stale n env w)) = Fulfilled v.
Proof.
  unfold delete_if_stale, fails, stale, caches_delete.
  destruct (negb (n =? CACHE_NAME)); simpl; [|now eexists].
  destruct (delete_ok env n); simpl; [now eexists | reflexivity].
Qed.

Lemma deletions_storage (names : list string) (w : World) :
  storage (snd (array_map delete_if_stale names env w)) =
  filter
    (fun e => negb (existsb (String.eqb (fst e)) (filter (deleted env) names)))
    (storage w).
Proof.
  revert w. induction names as [|n ns IH]; intros w.
  - simpl. induction (storage w) as [|e st IHst]; simpl; congruence.
  - rewrite array_map_cons. cbn [snd]. rewrite IH, delete_if_stale_storage.
    cbn [filter]. destruct (deleted env n); [|reflexivity].
    unfold assoc_remove. rewrite filter_filter.
    apply filter_ext. intros e. cbn [existsb].
    now rewrite negb_orb.
Qed.

Lemma deletions_trace (names : list string) (w : World) :
  trace (snd (array_map delete_if_stale names env w)) =
  trace w ++ deletion_events names.
Proof.
  revert w. induction names as [|n ns IH]; intros w.
  - simpl. now rewrite app_nil_r.
  - rewrite array_map_cons. cbn [snd]. rewrite IH, delete_if_stale_trace.
    rewrite <- app_assoc. f_equal.
    unfold deletion_events. simpl flat_map. now rewrite app_nil_r.
Qed.

Lemma deletions_first_rejection (names : list string) (w : World) :
  first_rejection (fst (array_map delete_if_stale names env w)) =
  first_failure env names.
Proof.
  revert w. induction names as [|n ns IH]; intros w; [reflexivity|].
  rewrite array_map_cons. cbn [fst first_rejection first_failure].
  rewrite IH, delete_if_stale_time.
  pose proof (delete_if_stale_outcome n w) as H.
  unfold fails in *. destruct (stale n); simpl in *.
  - destruct (delete_ok env n); simpl in *.
    + destruct H as [v ->]. reflexivity.
    + rewrite H. reflexivity.
  - destruct H as [v ->]. reflexivity.
Qed.

Lemma deletions_latest (names : list string) (w : World) :
  latest (fst (array_map delete_if_stale names env w)) =
  last_deletion env names.
Proof.
  revert w. induction names as [|n ns IH]; intros w; [reflexivity|].
  rewrite array_map_cons. cbn [fst]. unfold latest in *.
  cbn [fold_right last_deletion]. rewrite IH, delete_if_stale_time.
  now destruct (stale n).
Qed.

Lemma first_failure_none (names : list string) :
  first_failure env names = None <->
  forall n, In n names -> fails env n = false.
Proof.
  induction names as [|n ns IH]; simpl.
  - split; [intros _ n [] | reflexivity].
  - destruct (fails env n) eqn:F.
    + split.
      * destruct (first_failure env ns) as [[t' e']|];
          [destruct (Nat.leb _ _)|]; discriminate.
      * intros H. specialize (H n (or_introl eq_refl)). congruence.
    + rewrite IH. split.
      * intros H m [<-|Hm]; auto.
      * intros H m Hm. apply H. now right.
Qed.

Lemma first_failure_some (names : list string) (t : nat) (e : Error) :
  first_failure env names = Some (t, e) ->
  exists n, In n names /\ fails env n = true /\ t = delete_time env n
    /\ forall m, In m names -> fails env m = true -> t <= delete_time env m.
Proof.
  revert t e. induction names as [|n ns IH]; intros t e; simpl;
    [discriminate|].
  destruct (fails env n) eqn:F.
  - destruct (first_failure env ns) as [[t' e']|] eqn:E.
    + destruct (IH t' e' eq_refl) as (n' & Hin & Hf & Ht & Hmin).
      destruct (Nat.leb_spec (delete_time env n) t') as [L|L];
        intros [= <- <-].
      * exists n. repeat split; auto.
        intros m [<-|Hm] Fm; [lia|]. specialize (Hmin m Hm Fm). lia.
      * exists n'. repeat split; auto.
        intros m [<-|Hm] Fm; [lia|]. now apply Hmin.
    + intros [= <- <-]. exists n. repeat split; auto.
      intros m [<-|Hm] Fm; [lia|].
      apply first_failure_none with (n := m) in E; [congruence | exact Hm].
  - intros H. destruct (IH t e H) as (n' & Hin & Hf & Ht & Hmin).
    exists n'. repeat split; auto.
    intros m [<-|Hm] Fm; [congruence|]. now apply Hmin.
Qed.

Lemma last_deletion_bound (names : list string) (n : string) :
  In n names -> stale n = true ->
  delete_time env n <= last_deletion env names.
Proof.
  induction names as [|m ns IH]; intros Hin Hs; [contradiction|].
  simpl. destruct Hin as [->|Hin].
  - rewrite Hs. lia.
  - specialize (IH Hin Hs). destruct (stale m); lia.
Qed.
End DeleteIfStale.

Lemma activate_listener_eq (env : Env) (w : World) :
  activate_listener env w =
  let r := array_map delete_if_stale (bucket_names (storage w)) env
             (emit EvKeys w) in
  (Promise_all (fst r), claim (snd r)).
Proof.
  unfold activate_listener, caches_keys. cbv zeta.
  now destruct (array_map _ _ _ _).
Qed.

Lemma stale_names_In (st : CacheStorage) (n : string) :
  In n (stale_names st) <-> In n (bucket_names st) /\ stale n = true.
Proof. unfold stale_names, stale. apply filter_In. Qed.

Lemma deletion_events_In (names : list string) (n : string) :
  In n names -> stale n = true -> In (EvDelete n) (deletion_events names).
Proof.
  intros Hin Hs. unfold deletion_events. apply in_flat_map.
  exists n. split; [exact Hin|]. rewrite Hs. right. now left.
Qed.

(** The storage after the activate phase: exactly the buckets whose
    deletion was started and carried out are gone. *)
Lemma activate_storage (env : Env) (w : World) :
  storage (snd (activate_listener env w)) =
  filter (fun e => negb (deleted env (fst e))) (storage w).
Proof.
  rewrite activate_listener_eq. cbv zeta. cbn [snd].
  change (storage (claim ?x)) with (storage x).
  rewrite deletions_storage. cbn [storage emit].
  apply filter_ext_in. intros e He. f_equal.
  destruct (deleted env (fst e)) eqn:D.
  - apply existsb_exists. exists (fst e). split; [|apply String.eqb_refl].
    apply filter_In. split; [|exact D].
    unfold bucket_names. now apply in_map.
  - destruct (existsb _ _) eqn:X; [|reflexivity].
    apply existsb_exists in X as (n & Hn & Heq).
    apply String.eqb_eq in Heq. subst n.
    apply filter_In in Hn as [_ Hn]. congruence.
Qed.

Lemma activate_issues_deletions (env : Env) (w : World) (n : string) :
  In n (stale_names (storage w)) ->
  In (EvDelete n) (trace (snd (activate_listener env w))).
Proof.
  intros H. apply stale_names_In in H as [Hin Hs].
  rewrite activate_listener_eq. cbv zeta. cbn [snd].
  change (trace (claim ?x)) with (trace x).
  rewrite deletions_trace. apply in_or_app. right.
  now apply deletion_events_In.
Qed.

Lemma activate_first_rejection (env : Env) (w : World) :
  fst (activate_listener env w) =
  match first_failure env (bucket_names (storage w)) with
  | Some (t, e) => {| settled_at := t; outcome := Rejected e |}
  | None =>
      {| settled_at := last_deletion env (bucket_names (storage w));
         outcome :=
           Fulfilled
             (fulfilled_values
                (fst (array_map delete_if_stale (bucket_names (storage w))
                        env (emit EvKeys w)))) |}
  end.
Proof.
  rewrite activate_listener_eq. cbv zeta. cbn [fst]. unfold Promise_all.
  rewrite deletions_first_rejection, deletions_latest.
  now destruct (first_failure env _) as [[t e]|].
Qed.

Lemma fails_iff (env : Env) (n : string) :
  fails env n = true <-> stale n = true /\ delete_ok env n = false.
Proof.
  unfold fails. rewrite andb_true_iff, negb_true_iff. tauto.
Qed.



Lemma assoc_get_filter_same {V} (k : string) (l : list (string * V)) :
  assoc_get k (filter (fun e => fst e =? k) l) = assoc_get k l.
Proof.
  induction l as [|[k' v] l IH]; simpl; [reflexivity|].
  destruct (k' =? k) eqn:E; simpl; now rewrite ?E.
Qed.

Lemma bucket_names_filter (k : string) (st : CacheStorage) :
  bucket_names (filter (fun e => fst e =? k) st) =
  filter (fun n => n =? k) (bucket_names st).
Proof.
  unfold bucket_names.
  induction st as [|[n c] st IH]; simpl; [reflexivity|].
  destruct (n =? k); simpl; now rewrite IH.
Qed.

Lemma three_generations_wf : wf_storage three_generations.
Proof.
  unfold wf_storage. simpl.
  repeat constructor; simpl; intuition discriminate.
Qed.




(** C2, as the listener has it: every stale bucket's deletion is started
    whatever becomes of the others, and each deletion the storage carries
    out takes effect, so a failed deletion does not abort the others. The
    promise handed to [waitUntil] is the one of [Promise.all]: it rejects
    exactly when some deletion rejects, and then at the moment of the
    earliest rejection, without waiting for the rest; when no deletion
    rejects it fulfils at the moment the last deletion settles. *)
Theorem activate_settles_as_promise_all (env : Env) (w : World) :
  let p := fst (activate_listener env w) in
  let w' := snd (activate_listener env w) in
  (forall n, In n (stale_names (storage w)) -> In (EvDelete n) (trace w'))
  /\ storage w' = filter (fun e => negb (deleted env (fst e))) (storage w)
  /\ (is_rejected p = true <->
      exists n, In n (stale_names (storage w)) /\ delete_ok env n = false)
  /\ (is_rejected p = false ->
      settled_at p = last_deletion env (bucket_names (storage w))
      /\ forall n, In n (stale_names (storage w)) ->
           delete_time env n <= settled_at p)
  /\ (is_rejected p = true ->
      exists n, In n (stale_names (storage w)) /\ delete_ok env n = false
        /\ settled_at p = delete_time env n
        /\ forall m, In m (stale_names (storage w)) ->
             delete_ok env m = false -> settled_at p <= delete_time env m).
Proof.
  intros p w'.
  split; [intros n; apply activate_issues_deletions|].
  split; [apply activate_storage|].
  unfold p. rewrite activate_first_rejection.
  destruct (first_failure env (bucket_names (storage w))) as [[t e]|] eqn:E.
  - destruct (first_failure_some env _ t e E) as (n & Hin & Hf & Ht & Hmin).
    apply fails_iff in Hf as [Hs Hd].
    assert (Hn : In n (stale_names (storage w)))
      by now apply stale_names_In.
    assert (Hex : exists n, In n (stale_names (storage w))
                            /\ delete_ok env n = false /\ t = delete_time env n
                            /\ forall m, In m (stale_names (storage w)) ->
                                 delete_ok env m = false ->
                                 t <= delete_time env m).
    { exists n. repeat split; auto.
      intros m Hm Hdm. apply stale_names_In in Hm as [Hm Hsm].
      apply Hmin; [exact Hm|]. now apply fails_iff. }
    unfold is_rejected. cbn [outcome settled_at].
    split; [split; [intros _; now exists n | reflexivity]|].
    split; [discriminate | intros _; exact Hex].
  - unfold is_rejected. cbn [outcome settled_at].
    split; [split; [discriminate|]|].
    + intros (n & Hn & Hd). apply stale_names_In in Hn as [Hn Hs].
      pose proof (proj1 (first_failure_none env _) E n Hn) as F.
      assert (fails env n = true) by now apply fails_iff.
      congruence.
    + split; [|discriminate].
      intros _. split; [reflexivity|].
      intros n Hn. apply stale_names_In in Hn as [Hn Hs].
      now apply last_deletion_bound.
Qed.

Lemma activate_settles_as_promise_all_witness :
  exists n,
    In n (stale_names three_generations)
    /\ delete_ok stubborn_v0 n = false
    /\ settled_at
         (fst (activate_listener stubborn_v0 (world_of three_generations)))
       = delete_time stubborn_v0 n.
Proof.
  destruct (activate_settles_as_promise_all stubborn_v0
              (world_of three_generations)) as (_ & _ & _ & _ & H).
  destruct (H eq_refl) as (n & Hn & Hd & Ht & _).
  exists n. auto.
Defined.

(** C2 as worded fails: with three buckets, the storage refusing to delete
    the oldest one at moment 1 while the other deletion settles at moment
    5, the promise of the activate phase rejects, and it does so at moment
    1, before the other deletion, which was started and succeeds, has
    settled. *)
Lemma activate_rejects_early :
  let p := fst (activate_listener stubborn_v0 (world_of three_generations)) in
  let w' := snd (activate_listener stubborn_v0 (world_of three_generations)) in
  ~ activation_waits_and_succeeds stubborn_v0 (world_of three_generations)
  /\ outcome p = Rejected StorageFailure
  /\ settled_at p = 1
  /\ delete_time stubborn_v0 "angaza-creatives-beta" = 5
  /\ In (EvDelete "angaza-creatives-beta") (trace w')
  /\ bucket_names (storage w') = ["angaza-creatives-v0"; CACHE_NAME].
Proof.
  cbv zeta. split; [|repeat split].
  - unfold activation_waits_and_succeeds. intros [H _].
    vm_compute in H. discriminate.
  - vm_compute. tauto.
Qed.

(** ** Lookups *)

Lemma assoc_get_filter_names {V} (P : string -> bool) (n : string)
  (l : list (string * V)) :
  assoc_get n (filter (fun e => P (fst e)) l) =
  if P n then assoc_get n l else None.
Proof.
  induction l as [|[k v] l IH]; simpl; [now destruct (P n)|].
  destruct (String.eqb_spec k n) as [->|Hne].
  - destruct (P n) eqn:E; simpl.
    + now rewrite String.eqb_refl.
    + rewrite IH. now rewrite ?E.
  - destruct (P k); simpl; [|exact IH].
    destruct (String.eqb_spec k n) as [e|_]; [now elim Hne | exact IH].
Qed.

Lemma assoc_get_remove_other {V} (k key : string) (l : list (string * V)) :
  k <> key -> assoc_get k (assoc_remove key l) = assoc_get k l.
Proof.
  intros H. unfold assoc_remove.
  rewrite (assoc_get_filter_names (fun n => negb (n =? key)) k l).
  destruct (String.eqb_spec k key) as [e|_]; [now elim H | reflexivity].
Qed.

Lemma assoc_get_update_other {V} (n k : string) (f : V -> V)
  (l : list (string * V)) :
  n <> k -> assoc_get n (assoc_update k f l) = assoc_get n l.
Proof.
  intros H. induction l as [|[k' v] l IH]; simpl; [reflexivity|].
  destruct (String.eqb_spec k' k) as [->|_]; simpl.
  - destruct (String.eqb_spec k n) as [e|_]; [now elim H | reflexivity].
  - now rewrite IH.
Qed.

Lemma bucket_put_get_other (k key : string) (r : Response) (c : Cache) :
  k <> key -> assoc_get k (bucket_put key r c) = assoc_get k c.
Proof.
  intros H. unfold bucket_put.
  rewrite assoc_get_app, (assoc_get_remove_other k key c H). simpl.
  destruct (String.eqb_spec key k) as [e|_]; [now elim H|].
  now destruct (assoc_get k c).
Qed.

Lemma bucket_put_all_get_other (k : string) (es : list (string * Response))
  (c : Cache) :
  ~ In k (map fst es) ->
  assoc_get k (bucket_put_all es c) = assoc_get k c.
Proof.
  unfold bucket_put_all. revert c.
  induction es as [|[key r] es IH]; intros c H; simpl; [reflexivity|].
  rewrite IH by (intros Hin; apply H; now right).
  apply bucket_put_get_other. intros ->. apply H. now left.
Qed.

Lemma caches_open_content (name : string) (env : Env) (w : World) :
  bucket name (storage (snd (caches_open name env w)))
  = Some (content name (storage w)).
Proof.
  unfold caches_open, content, bucket, assoc_has. cbn [storage emit].
  destruct (assoc_get name (storage w)) as [c|] eqn:E;
    cbn [snd storage set_storage emit].
  - exact E.
  - rewrite assoc_get_app, E. simpl. now rewrite String.eqb_refl.
Qed.

Lemma caches_open_other (n name : string) (env : Env) (w : World) :
  n <> name ->
  bucket n (storage (snd (caches_open name env w))) = bucket n (storage w).
Proof.
  intros H. unfold caches_open, bucket. cbn [storage emit].
  destruct (assoc_has name (storage w)); cbn [snd storage set_storage emit];
    [reflexivity|].
  rewrite assoc_get_app. simpl.
  destruct (String.eqb_spec name n) as [e|_]; [now elim H|].
  now destruct (assoc_get n (storage w)).
Qed.

Lemma cache_lookup_absent (n k : string) (st : CacheStorage) :
  bucket n st = None -> cache_lookup n k st = None.
Proof. intros H. unfold cache_lookup, content. now rewrite H. Qed.

Lemma caches_open_fulfils (name : string) (env : Env) (w : World) :
  fst (caches_open name env w) = Fulfilled name.
Proof.
  unfold caches_open. cbn [storage emit].
  now destruct (assoc_has name (storage w)).
Qed.

Lemma caches_open_trace (name : string) (env : Env) (w : World) :
  trace (snd (caches_open name env w)) = trace w ++ [EvOpen name].
Proof.
  unfold caches_open. cbn [storage emit].
  now destruct (assoc_has name (storage w)).
Qed.

Lemma caches_open_pending (name : string) (env : Env) (w : World) :
  pending (snd (caches_open name env w)) = pending w.
Proof.
  unfold caches_open. cbn [storage emit].
  now destruct (assoc_has name (storage w)).
Qed.

Lemma caches_open_storage (name : string) (env env' : Env) (w1 w2 : World) :
  storage w1 = storage w2 ->
  storage (snd (caches_open name env w1))
  = storage (snd (caches_open name env' w2)).
Proof.
  intros H. unfold caches_open. cbn [storage emit]. rewrite H.
  now destruct (assoc_has name (storage w2)).
Qed.

Lemma caches_open_has (name : string) (env : Env) (w : World) :
  assoc_has name (storage (snd (caches_open name env w))) = true.
Proof.
  pose proof (caches_open_content name env w) as H.
  unfold bucket in H. unfold assoc_has. now rewrite H.
Qed.

(** Opening a bucket changes no entry. *)
Lemma caches_open_lookup (n k name : string) (env : Env) (w : World) :
  cache_lookup n k (storage (snd (caches_open name env w)))
  = cache_lookup n k (storage w).
Proof.
  unfold cache_lookup. f_equal.
  destruct (String.eqb_spec n name) as [->|Hn].
  - unfold content at 1. now rewrite caches_open_content.
  - unfold content. now rewrite caches_open_other.
Qed.

(** ** Fetch: the network answers *)

Lemma clone_eq (r : Response) : clone r = r.
Proof. now destruct r. Qed.

Lemma fetch_listener_response (request : Request) (env : Env) (w : World)
  (r : Response) :
  method request = "GET" ->
  startsWith (url request) "chrome-extension://" = false ->
  network env (url request) = Some r ->
  fetch_listener request env w =
  (RespondWith (Fulfilled (Some r)),
   let w1 := emit (EvClone (url request)) (emit (EvNetwork (url request)) w) in
   if cacheable request r
   then detach (StoreTask CACHE_NAME request r)
          (snd (caches_open CACHE_NAME env w1))
   else w1).
Proof.
  intros Hm Hc Hn. unfold fetch_listener.
  rewrite Hm, Hc. change ("GET" =? "GET") with true. cbn [negb].
  unfold catch_, then_, fetch, on_response, cacheable.
  rewrite Hn, clone_eq. cbv zeta.
  destruct ((status r =? 200)%Z && includes (url request) "/static/");
    [|reflexivity].
  pose proof (caches_open_fulfils CACHE_NAME env
                (emit (EvClone (url request))
                   (emit (EvNetwork (url request)) w))) as Hf.
  destruct (caches_open CACHE_NAME env _) as [[cache|e] w0];
    cbn [fst snd] in *; [|discriminate Hf].
  now injection Hf as ->.
Qed.

Lemma fetch_listener_failure (request : Request) (env : Env) (w : World) :
  method request = "GET" ->
  startsWith (url request) "chrome-extension://" = false ->
  network env (url request) = None ->
  fetch_listener request env w =
  (RespondWith (Fulfilled (code_fallback request (storage w))),
   let w1 := emit (EvMatch (url request)) (emit (EvNetwork (url request)) w) in
   match storage_match (url request) (storage w) with
   | Some _ => w1
   | None => if mode request =? "navigate" then emit (EvMatch "/") w1 else w1
   end).
Proof.
  intros Hm Hc Hn. unfold fetch_listener.
  rewrite Hm, Hc. change ("GET" =? "GET") with true. cbn [negb].
  unfold catch_, then_, fetch, on_failure, then_, caches_match, resolve,
    code_fallback.
  rewrite Hn. cbn [storage emit].
  destruct (storage_match (url request) (storage w)); [reflexivity|].
  now destruct (mode request =? "navigate").
Qed.

(** The world at the moment the listener has its response, for a response
    to cache: the copy is taken and the bucket asked for. *)
Lemma response_world_trace (request : Request) (env : Env) (w : World) :
  trace
    (snd (caches_open CACHE_NAME env
            (emit (EvClone (url request)) (emit (EvNetwork (url request)) w))))
  = trace w ++ [EvNetwork (url request); EvClone (url request);
                EvOpen CACHE_NAME].
Proof.
  rewrite caches_open_trace. cbn [trace emit].
  now rewrite <- !app_assoc.
Qed.

(** ** Detached stores *)

Lemma settle_pending_detach (t : Task) (env : Env) (w : World) :
  settle_pending env (detach t w) = run_task t env (settle_pending env w).
Proof.
  unfold settle_pending. cbn [pending detach].
  now rewrite fold_left_app.
Qed.

Lemma run_task_store_storage (name : string) (request : Request)
  (copy : Response) (env : Env) (w : World) :
  storage (run_task (StoreTask name request copy) env w) =
  if put_ok env name (url request)
  then assoc_update name (bucket_put (url request) copy) (storage w)
  else storage w.
Proof.
  unfold run_task, cache_put. cbn [storage emit].
  now destruct (put_ok env name (url request)).
Qed.

Lemma run_task_storage (t : Task) (env : Env) (w1 w2 : World) :
  storage w1 = storage w2 ->
  storage (run_task t env w1) = storage (run_task t env w2).
Proof.
  intros H. destruct t as [name request copy].
  rewrite !run_task_store_storage. now rewrite H.
Qed.

Lemma run_tasks_storage (ts : list Task) (env : Env) (w1 w2 : World) :
  storage w1 = storage w2 ->
  storage (fold_left (fun acc t => run_task t env acc) ts w1) =
  storage (fold_left (fun acc t => run_task t env acc) ts w2).
Proof.
  revert w1 w2. induction ts as [|t ts IH]; intros w1 w2 H; simpl; [exact H|].
  apply IH. now apply run_task_storage.
Qed.

Lemma settle_pending_storage (env : Env) (w1 w2 : World) :
  storage w1 = storage w2 -> pending w1 = pending w2 ->
  storage (settle_pending env w1) = storage (settle_pending env w2).
Proof.
  intros Hs Hp. unfold settle_pending. rewrite Hp.
  now apply run_tasks_storage.
Qed.

(** A store adds no bucket and removes none. *)
Lemma run_task_names (t : Task) (env : Env) (w : World) :
  bucket_names (storage (run_task t env w)) = bucket_names (storage w).
Proof.
  destruct t as [name request copy]. rewrite run_task_store_storage.
  destruct (put_ok env name (url request)); [|reflexivity].
  apply assoc_update_names.
Qed.

Lemma settle_pending_names (env : Env) (w : World) :
  bucket_names (storage (settle_pending env w)) = bucket_names (storage w).
Proof.
  unfold settle_pending.
  change (bucket_names (storage w))
    with (bucket_names (storage (set_pending [] w))).
  generalize (set_pending [] w).
  induction (pending w) as [|t ts IH]; intros w0; simpl; [reflexivity|].
  now rewrite IH, run_task_names.
Qed.

(** A store the storage accepts leaves the entry in the bucket it was
    opened on. *)
Lemma run_task_stored (name : string) (request : Request) (copy : Response)
  (env : Env) (w : World) :
  put_ok env name (url request) = true ->
  assoc_has name (storage w) = true ->
  exists c,
    bucket name (storage (run_task (StoreTask name request copy) env w))
      = Some c
    /\ assoc_get (url request) c = Some copy.
Proof.
  intros H Hhas. rewrite run_task_store_storage, H. unfold bucket.
  rewrite assoc_get_update_same. unfold assoc_has in Hhas.
  destruct (assoc_get name (storage w)) as [c0|]; [|discriminate].
  simpl. eexists. split; [reflexivity | apply bucket_put_get].
Qed.

(** A store the storage refuses leaves the storage as it was. *)
Lemma run_task_refused (name : string) (request : Request) (copy : Response)
  (env : Env) (w : World) :
  put_ok env name (url request) = false ->
  storage (run_task (StoreTask name request copy) env w) = storage w.
Proof. intros H. now rewrite run_task_store_storage, H. Qed.

Lemma stored_after_detach (request : Request) (r : Response) (env : Env)
  (w : World) :
  put_ok env CACHE_NAME (url request) = true ->
  exists c,
    bucket CACHE_NAME
      (storage
         (settle_pending env
            (detach (StoreTask CACHE_NAME request r)
               (snd (caches_open CACHE_NAME env w)))))
      = Some c
    /\ assoc_get (url request) c = Some r.
Proof.
  intros H. rewrite settle_pending_detach. apply run_task_stored; [exact H|].
  apply assoc_has_In.
  change (In CACHE_NAME
            (bucket_names
               (storage
                  (settle_pending env (snd (caches_open CACHE_NAME env w)))))).
  rewrite settle_pending_names. apply assoc_has_In, caches_open_has.
Qed.

Lemma refused_after_detach (request : Request) (r : Response) (env : Env)
  (w : World) :
  put_ok env CACHE_NAME (url request) = false ->
  storage
    (settle_pending env
       (detach (StoreTask CACHE_NAME request r)
          (snd (caches_open CACHE_NAME env
                  (emit (EvClone (url request))
                     (emit (EvNetwork (url request)) w))))))
  = storage (settle_pending env (snd (caches_open CACHE_NAME env w))).
Proof.
  intros H. rewrite settle_pending_detach, run_task_refused by exact H.
  apply settle_pending_storage.
  - now apply caches_open_storage.
  - now rewrite !caches_open_pending.
Qed.




Lemma fetch_listener_pass_through (request : Request) (env : Env) (w : World) :
  method request <> "GET"
  \/ startsWith (url request) "chrome-extension://" = true ->
  fetch_listener request env w = (PassThrough, w).
Proof.
  intros H. unfold fetch_listener.
  destruct (String.eqb_spec (method request) "GET") as [Hm|Hm];
    [|reflexivity].
  destruct H as [H|H]; [now elim H|]. now rewrite H.
Qed.

(** C4, with the storage's part in it: a response is written into the
    bucket of the current generation if and only if its status is 200, the
    URL of the request has ["/static/"] in it and the storage accepts the
    write. For every request the network answers with anything but a 200
    for such a URL, the listener starts no store and the storage stays as
    it was, also after the detached work has run. For a response the
    listener gets from the network, the response is handed back as it is,
    no entry is written on the way, and the store is started exactly for a
    200 and such a URL; the bucket then holds the response when the
    storage accepts the write, and the storage is what opening the bucket
    leaves when it refuses it. *)
Theorem store_iff_200_and_static (request : Request) (env : Env) (w : World)
  (r : Response) :
  network env (url request) = Some r ->
  let w' := snd (fetch_listener request env w) in
  let static_200 :=
    status r = 200%Z /\ includes (url request) "/static/" = true in
  (~ static_200 ->
   pending w' = pending w
   /\ storage w' = storage w
   /\ storage (settle_pending env w') = storage (settle_pending env w))
  /\ (method request = "GET" ->
      startsWith (url request) "chrome-extension://" = false ->
      fst (fetch_listener request env w) = RespondWith (Fulfilled (Some r))
      /\ (forall n k,
            cache_lookup n k (storage w') = cache_lookup n k (storage w))
      /\ (pending w' = pending w ++ [StoreTask CACHE_NAME request r]
          <-> static_200)
      /\ (static_200 ->
          put_ok env CACHE_NAME (url request) = true ->
          exists c,
            bucket CACHE_NAME (storage (settle_pending env w')) = Some c
            /\ assoc_get (url request) c = Some r)
      /\ (static_200 ->
          put_ok env CACHE_NAME (url request) = false ->
          storage (settle_pending env w')
          = storage
              (settle_pending env (snd (caches_open CACHE_NAME env w))))).
Proof.
  intros Hn w' static_200. unfold w', static_200.
  assert (Hiff : cacheable request r = true <->
                 status r = 200%Z /\ includes (url request) "/static/" = true).
  { unfold cacheable. rewrite andb_true_iff, Z.eqb_eq. tauto. }
  split.
  - intros Hnot.
    destruct (String.eqb_spec (method request) "GET") as [Hm|Hm].
    + destruct (startsWith (url request) "chrome-extension://") eqn:Hc.
      * rewrite fetch_listener_pass_through by now right. now cbn [snd].
      * rewrite (fetch_listener_response request env w r Hm Hc Hn).
        cbv zeta. cbn [snd].
        destruct (cacheable request r) eqn:C;
          [elim Hnot; now apply Hiff|].
        split; [reflexivity|]. split; [reflexivity|].
        now apply settle_pending_storage.
    + rewrite fetch_listener_pass_through by now left. now cbn [snd].
  - intros Hm Hc.
    rewrite (fetch_listener_response request env w r Hm Hc Hn).
    cbv zeta. cbn [fst snd].
    destruct (cacheable request r) eqn:C.
    + split; [reflexivity|].
      split.
      { intros n k. cbn [storage detach]. now rewrite caches_open_lookup. }
      split.
      { split; [intros _; now apply Hiff|]. intros _.
        cbn [pending detach]. now rewrite caches_open_pending. }
      split.
      * intros _ Hp. now apply stored_after_detach.
      * intros _ Hp. now apply refused_after_detach.
    + assert (Hnot : ~ (status r = 200%Z
                        /\ includes (url request) "/static/" = true)).
      { intros H. apply Hiff in H. discriminate. }
      split; [reflexivity|]. split; [reflexivity|].
      split; [split|].
      * cbn [pending emit]. intros H. apply (f_equal (@length Task)) in H.
        rewrite length_app in H. simpl in H. lia.
      * intros H. now elim Hnot.
      * split; intros H; now elim Hnot.
Qed.

Lemma store_iff_200_and_static_witness :
  pending (snd (fetch_listener (resource "/api/currencies/") online empty_world))
  = []
  /\ pending (snd (fetch_listener (resource "/static/js/main.js") online empty_world))
     = [StoreTask CACHE_NAME (resource "/static/js/main.js")
          (page "/static/js/main.js")]
  /\ storage (handled (resource "/static/js/main.js") storage_full empty_world)
     = [(CACHE_NAME, [])].
Proof.
  split; [|split].
  - destruct (store_iff_200_and_static (resource "/api/currencies/") online
                empty_world (page "/api/currencies/") eq_refl)
      as (H & _).
    apply H. intros [_ H']. discriminate H'.
  - destruct (store_iff_200_and_static (resource "/static/js/main.js") online
                empty_world (page "/static/js/main.js") eq_refl)
      as (_ & H).
    destruct (H eq_refl eq_refl) as (_ & _ & H' & _).
    apply H'. split; reflexivity.
  - destruct (store_iff_200_and_static (resource "/static/js/main.js")
                storage_full empty_world (page "/static/js/main.js") eq_refl)
      as (_ & H).
    destruct (H eq_refl eq_refl) as (_ & _ & _ & _ & H').
    unfold handled. rewrite H'; [reflexivity | split; reflexivity | reflexivity].
Defined.

(** C4 as worded fails when the storage refuses the write: a response with
    status 200 to an intercepted request for a static path is handed back
    and is not in the bucket afterwards. *)
Lemma static_200_not_written_when_refused :
  let request := resource "/static/js/main.js" in
  let r := page (url request) in
  method request = "GET"
  /\ startsWith (url request) "chrome-extension://" = false
  /\ network storage_full (url request) = Some r
  /\ (status r = 200%Z /\ includes (url request) "/static/" = true)
  /\ fst (fetch_listener request storage_full empty_world)
     = RespondWith (Fulfilled (Some r))
  /\ ~ stored_in_current_bucket request r
         (storage (handled request storage_full empty_world)).
Proof.
  cbv zeta. repeat split.
  intros (c & e & Hb & Hg & _). vm_compute in Hb. injection Hb as <-.
  discriminate Hg.
Qed.

(** C7: the store on the fetch path is detached. When the listener has the
    response to return, it has taken the copy and, for a response to
    cache, asked for the bucket, and nothing else: no entry of any bucket
    has changed, nothing was put, and the store, holding the copy, is left
    among the detached work. The response is the network's whatever the
    storage will answer to the store, and the store's outcome is dropped
    when it runs. *)
Theorem store_is_fire_and_forget (request : Request) (env : Env) (w : World)
  (r : Response) :
  method request = "GET" ->
  startsWith (url request) "chrome-extension://" = false ->
  network env (url request) = Some r ->
  let w' := snd (fetch_listener request env w) in
  fst (fetch_listener request env w) = RespondWith (Fulfilled (Some r))
  /\ (forall n k,
        cache_lookup n k (storage w') = cache_lookup n k (storage w))
  /\ trace w'
     = trace w ++ [EvNetwork (url request); EvClone (url request)]
         ++ (if cacheable request r then [EvOpen CACHE_NAME] else [])
  /\ pending w'
     = pending w
         ++ (if cacheable request r
             then [StoreTask CACHE_NAME request (clone r)]
             else [])
  /\ forall env',
       network env' (url request) = Some r ->
       fst (fetch_listener request env' w)
       = fst (fetch_listener request env w).
Proof.
  intros Hm Hc Hn w'. unfold w'.
  rewrite (fetch_listener_response request env w r Hm Hc Hn).
  cbv zeta. cbn [fst snd].
  split; [reflexivity|]. split; [|split; [|split]].
  - intros n k. destruct (cacheable request r); [|reflexivity].
    cbn [storage detach]. now rewrite caches_open_lookup.
  - destruct (cacheable request r).
    + cbn [trace detach]. apply response_world_trace.
    + cbn [trace emit]. now rewrite <- !app_assoc.
  - rewrite clone_eq. destruct (cacheable request r).
    + cbn [pending detach]. now rewrite caches_open_pending.
    + cbn [pending emit]. now rewrite app_nil_r.
  - intros env' Hn'.
    now rewrite (fetch_listener_response request env' w r Hm Hc Hn').
Qed.

Lemma store_is_fire_and_forget_witness :
  fst (fetch_listener (resource "/static/js/main.js") storage_full empty_world)
  = fst (fetch_listener (resource "/static/js/main.js") online empty_world)
  /\ storage (handled (resource "/static/js/main.js") storage_full empty_world)
     = [(CACHE_NAME, [])].
Proof.
  split; [|reflexivity].
  destruct (store_is_fire_and_forget (resource "/static/js/main.js") online
              empty_world (page "/static/js/main.js") eq_refl eq_refl eq_refl)
    as (_ & _ & _ & _ & H).
  now apply H.
Defined.




(** ** Fetch: the network fails *)

Lemma storage_match_current_only (key : string) (st : CacheStorage) :
  wf_storage st ->
  (forall n, In n (bucket_names st) -> n = CACHE_NAME) ->
  storage_match key st =
  assoc_get key (match bucket CACHE_NAME st with Some c => c | None => [] end).
Proof.
  intros Hwf Hall. destruct st as [|[n c] st]; [reflexivity|].
  assert (n = CACHE_NAME) as -> by (apply Hall; now left).
  destruct st as [|[m d] st].
  - unfold bucket. simpl. now destruct (assoc_get key c).
  - assert (m = CACHE_NAME) as -> by (apply Hall; right; now left).
    unfold wf_storage in Hwf. simpl in Hwf. inversion Hwf as [|? ? Hn _].
    elim Hn. now left.
Qed.

(** C5, as the listener has it: for an intercepted GET request whose
    network fetch fails, the answer comes from [caches.match], which asks
    every bucket of the origin in creation order, not the bucket of the
    current generation alone. An entry matching the request is returned;
    otherwise a navigation gets the entry stored for ["/"], if any;
    otherwise there is no response. Nothing is written. When the bucket
    of the current generation is the only one, this is the three-step
    fallback on that bucket. *)
Theorem offline_fallback_asks_every_bucket (request : Request) (env : Env)
  (w : World) :
  method request = "GET" ->
  startsWith (url request) "chrome-extension://" = false ->
  network env (url request) = None ->
  let res := fst (fetch_listener request env w) in
  let w' := snd (fetch_listener request env w) in
  (forall e, storage_match (url request) (storage w) = Some e ->
     res = RespondWith (Fulfilled (Some e)))
  /\ (storage_match (url request) (storage w) = None ->
      mode request = "navigate" ->
      res = RespondWith (Fulfilled (storage_match "/" (storage w))))
  /\ (storage_match (url request) (storage w) = None ->
      mode request <> "navigate" ->
      res = RespondWith (Fulfilled None))
  /\ storage w' = storage w
  /\ pending w' = pending w
  /\ (wf_storage (storage w) ->
      (forall n, In n (bucket_names (storage w)) -> n = CACHE_NAME) ->
      res = RespondWith (Fulfilled (spec_fallback request (storage w)))).
Proof.
  intros Hm Hc Hn res w'. unfold res, w'.
  rewrite (fetch_listener_failure request env w Hm Hc Hn).
  cbv zeta. cbn [fst snd]. unfold code_fallback.
  split; [intros e ->; reflexivity|].
  split; [intros -> ->; reflexivity|].
  split.
  { intros -> H. destruct (String.eqb_spec (mode request) "navigate");
      [now elim H | reflexivity]. }
  split.
  { destruct (storage_match _ _); [reflexivity|].
    now destruct (mode request =? "navigate"). }
  split.
  { destruct (storage_match _ _); [reflexivity|].
    now destruct (mode request =? "navigate"). }
  intros Hwf Hall. unfold spec_fallback.
  now rewrite !(storage_match_current_only _ _ Hwf Hall).
Qed.

Lemma offline_fallback_asks_every_bucket_witness :
  fst (fetch_listener (navigate "/products/") offline
         (world_of [(CACHE_NAME, [("/", page "/")])]))
  = RespondWith (Fulfilled (Some (page "/"))).
Proof.
  destruct (offline_fallback_asks_every_bucket (navigate "/products/") offline
              (world_of [(CACHE_NAME, [("/", page "/")])])
              eq_refl eq_refl eq_refl) as (_ & H & _).
  exact (H eq_refl eq_refl).
Defined.

(** C5 as worded fails when another bucket exists: offline, a sub-resource
    request with no entry in the bucket of the current generation is
    answered from the bucket of the next generation. *)
Lemma offline_answer_from_other_bucket :
  let request := resource "/static/js/main.js" in
  let w := world_of next_generation_installed in
  method request = "GET"
  /\ network offline (url request) = None
  /\ spec_fallback request (storage w) = None
  /\ fst (fetch_listener request offline w)
     <> RespondWith (Fulfilled (spec_fallback request (storage w))).
Proof.
  cbv zeta. repeat split. intros H. vm_compute in H. discriminate.
Qed.

(** ** Install, twice *)

Lemma addAll_entries_all_ok (env : Env) (urls : list string) :
  forallb (seed_ok env) urls = true ->
  exists es,
    addAll_entries env CACHE_NAME urls = Fulfilled es
    /\ map fst es = urls
    /\ forall u, In u urls -> assoc_get u es = network env u.
Proof.
  induction urls as [|u urls IH]; simpl; intros H.
  - exists []. repeat split. intros u [].
  - apply andb_true_iff in H as [Hu Hrest].
    destruct (IH Hrest) as (es & -> & Hkeys & Hget).
    unfold seed_ok in Hu. destruct (network env u) as [r|] eqn:N;
      [|discriminate].
    apply andb_true_iff in Hu as [-> ->]. simpl.
    exists ((u, r) :: es). split; [reflexivity|].
    split; [simpl; now rewrite Hkeys|].
    intros u' Hin. simpl. destruct (String.eqb_spec u u') as [<-|Hne].
    + now rewrite N.
    + destruct Hin as [->|Hin]; [now elim Hne | now apply Hget].
Qed.

Lemma addAll_entries_not_all_ok (env : Env) (urls : list string) :
  forallb (seed_ok env) urls = false ->
  exists e, addAll_entries env CACHE_NAME urls = Rejected e.
Proof.
  induction urls as [|u urls IH]; simpl; intros H; [discriminate|].
  unfold seed_ok in H at 1.
  destruct (network env u) as [r|]; [|now eexists].
  destruct (addAll_accepts r); simpl in *; [|now eexists].
  destruct (put_ok env CACHE_NAME u); simpl in *; [|now eexists].
  destruct (IH H) as [e ->]. now eexists.
Qed.

(** The storage after one install and after two, when the seed operation
    succeeds with the entries [es]. *)
Lemma install_twice_fulfilled (env : Env) (es : list (string * Response)) :
  addAll_entries env CACHE_NAME urlsToCache = Fulfilled es ->
  map fst es = urlsToCache ->
  storage (snd (install_listener env empty_world)) = [(CACHE_NAME, es)]
  /\ storage (installed_twice env) = [(CACHE_NAME, es)].
Proof.
  intros E Hkeys. unfold installed_twice. fold empty_world.
  rewrite !(install_fulfilled_seed env _ es E). cbv zeta.
  cbn [snd storage skipWaiting set_storage].
  rewrite !storage_emit_all. cbn [storage emit].
  destruct es as [|[k1 r1] [|[k2 r2] [|[k3 r3] [|[k4 r4] [|? ?]]]]];
    try discriminate Hkeys.
  injection Hkeys as -> -> -> ->.
  split; reflexivity.
Qed.

Lemma install_twice_rejected (env : Env) (e : Error) :
  addAll_entries env CACHE_NAME urlsToCache = Rejected e ->
  storage (snd (install_listener env empty_world)) = [(CACHE_NAME, [])]
  /\ storage (installed_twice env) = [(CACHE_NAME, [])].
Proof.
  intros E. unfold installed_twice. fold empty_world.
  rewrite !(install_rejected_seed env _ e E).
  split; reflexivity.
Qed.

(** C8, as the listener has it: running install twice, under the same
    network conditions and starting with no bucket, leaves what running it
    once leaves: one bucket, named [CACHE_NAME]. The seed assets go in as
    a group: the bucket holds every seed asset, with the response the
    network gave, when all of them were fetched with a status [addAll]
    takes (ok, and not 206) and taken by the storage, and it is empty when
    one of them was not. *)
Theorem install_twice_is_install_once (env : Env) :
  storage (installed_twice env)
  = storage (snd (install_listener env empty_world))
  /\ bucket_names (storage (installed_twice env)) = [CACHE_NAME]
  /\ (all_seeds_ok env = true ->
      exists c,
        storage (installed_twice env) = [(CACHE_NAME, c)]
        /\ map fst c = urlsToCache
        /\ forall u, In u urlsToCache -> assoc_get u c = network env u)
  /\ (all_seeds_ok env = false ->
      storage (installed_twice env) = [(CACHE_NAME, [])]).
Proof.
  unfold all_seeds_ok.
  destruct (forallb (seed_ok env) urlsToCache) eqn:A.
  - destruct (addAll_entries_all_ok env urlsToCache A)
      as (es & E & Hkeys & Hget).
    destruct (install_twice_fulfilled env es E Hkeys) as [H1 H2].
    rewrite H1, H2. split; [reflexivity|]. split; [reflexivity|].
    split; [|discriminate]. intros _. now exists es.
  - destruct (addAll_entries_not_all_ok env urlsToCache A) as [e E].
    destruct (install_twice_rejected env e E) as [H1 H2].
    rewrite H1, H2. split; [reflexivity|]. split; [reflexivity|].
    split; [discriminate | reflexivity].
Qed.

Lemma install_twice_is_install_once_witness :
  (exists c,
     storage (installed_twice online) = [(CACHE_NAME, c)]
     /\ map fst c = urlsToCache
     /\ assoc_get "/" c = Some (page "/"))
  /\ storage (installed_twice logo_missing) = [(CACHE_NAME, [])]
  /\ storage (installed_twice root_partial) = [(CACHE_NAME, [])].
Proof.
  split; [|split];
    [| |destruct (install_twice_is_install_once root_partial)
          as (_ & _ & _ & H); exact (H eq_refl)].
  - destruct (install_twice_is_install_once online) as (_ & _ & H & _).
    destruct (H eq_refl) as (c & Hc & Hk & Hg).
    exists c. split; [exact Hc|]. split; [exact Hk|].
    exact (Hg "/" (or_introl eq_refl)).
  - destruct (install_twice_is_install_once logo_missing) as (_ & _ & _ & H).
    exact (H eq_refl).
Defined.

(** C8 as worded fails when a seed asset is missing: with the logo out of
    reach and the three other seed assets served, the bucket is empty
    after two installs, so the root document, which was reachable, is not
    in it. *)
Lemma reachable_seed_not_stored : ~ reachable_seeds_stored logo_missing.
Proof.
  intros H.
  destruct (H "/" (page "/") (or_introl eq_refl) eq_refl eq_refl)
    as (c & Hb & Hg).
  vm_compute in Hb. injection Hb as <-. discriminate.
Qed.

(** ** The storage stays a map

    The three listeners and the detached stores keep bucket names unique,
    so the worlds they are stated on are the ones the worker lives in. *)

Lemma NoDup_names_filter {V} (P : string * V -> bool) (l : list (string * V)) :
  NoDup (map fst l) -> NoDup (map fst (filter P l)).
Proof.
  induction l as [|[k v] l IH]; simpl; intros H; [constructor|].
  inversion H as [|? ? Hk Hl]; subst.
  destruct (P (k, v)); simpl; [|now apply IH].
  constructor; [|now apply IH].
  intros Hin. apply Hk. apply in_map_iff in Hin as ([k' v'] & <- & Hin).
  apply filter_In in Hin as [Hin _].
  apply in_map_iff. now exists (k', v').
Qed.

Lemma caches_open_wf (name : string) (env : Env) (w : World) :
  wf_storage (storage w) ->
  wf_storage (storage (snd (caches_open name env w))).
Proof.
  unfold wf_storage, bucket_names, caches_open. cbn [storage emit].
  intros H. destruct (assoc_has name (storage w)) eqn:E; [exact H|].
  cbn [snd storage set_storage emit]. rewrite map_app. simpl.
  apply NoDup_app; [exact H | repeat constructor; intros [] |].
  intros n Hn [<-|[]].
  apply assoc_has_In in Hn. congruence.
Qed.

Lemma install_listener_wf (env : Env) (w : World) :
  wf_storage (storage w) ->
  wf_storage (storage (snd (install_listener env w))).
Proof.
  intros H. apply (caches_open_wf CACHE_NAME env) in H.
  destruct (addAll_entries env CACHE_NAME urlsToCache) as [es|e] eqn:E.
  - rewrite (install_fulfilled_seed env w es E). cbv zeta.
    cbn [snd storage skipWaiting set_storage].
    unfold wf_storage, bucket_names. rewrite assoc_update_names.
    now rewrite storage_emit_all.
  - rewrite (install_rejected_seed env w e E).
    cbn [snd storage skipWaiting emit]. now rewrite storage_emit_all.
Qed.

Lemma activate_listener_wf (env : Env) (w : World) :
  wf_storage (storage w) ->
  wf_storage (storage (snd (activate_listener env w))).
Proof.
  intros H. rewrite activate_storage. now apply NoDup_names_filter.
Qed.

Lemma run_task_wf (t : Task) (env : Env) (w : World) :
  wf_storage (storage w) -> wf_storage (storage (run_task t env w)).
Proof. unfold wf_storage. now rewrite run_task_names. Qed.

Lemma fetch_listener_wf (request : Request) (env : Env) (w : World) :
  wf_storage (storage w) ->
  wf_storage (storage (snd (fetch_listener request env w))).
Proof.
  intros H.
  destruct (String.eqb_spec (method request) "GET") as [Hm|Hm];
    [|now rewrite fetch_listener_pass_through by now left].
  destruct (startsWith (url request) "chrome-extension://") eqn:Hc;
    [now rewrite fetch_listener_pass_through by now right|].
  destruct (network env (url request)) as [r|] eqn:Hn.
  - rewrite (fetch_listener_response request env w r Hm Hc Hn).
    cbv zeta. cbn [snd]. destruct (cacheable request r); [|exact H].
    cbn [storage detach]. now apply caches_open_wf.
  - rewrite (fetch_listener_failure request env w Hm Hc Hn).
    cbv zeta. cbn [snd].
    destruct (storage_match _ _); [exact H|].
    now destruct (mode request =? "navigate").
Qed.

Lemma handled_wf (request : Request) (env : Env) (w : World) :
  wf_storage (storage w) -> wf_storage (storage (handled request env w)).
Proof.
  intros H. unfold handled, wf_storage. rewrite settle_pending_names.
  now apply fetch_listener_wf.
Qed.

(** * Further properties of the worker *)

(** ** Fetch: requests of browser extensions *)

(** X1: a request for a resource of a browser extension, that is one whose
    URL starts with ["chrome-extension://"], is not intercepted, whatever
    its method: the listener returns without responding and leaves the
    world as it found it. *)
Theorem extension_scheme_bypass (request : Request) (env : Env) (w : World)
  (rest : string) :
  url request = ("chrome-extension://" ++ rest)%string ->
  fetch_listener request env w = (PassThrough, w).
Proof.
  intros H. apply fetch_listener_pass_through. right.
  unfold startsWith. rewrite H. apply prefix_app.
Qed.

Lemma extension_scheme_bypass_witness :
  fetch_listener
    (resource "chrome-extension://gighmmpiobklfepjocnamgkkbiglidom/static/js/app.js")
    online (world_of three_generations)
  = (PassThrough, world_of three_generations).
Proof.
  apply (extension_scheme_bypass _ _ _
           "gighmmpiobklfepjocnamgkkbiglidom/static/js/app.js").
  reflexivity.
Defined.

(** ** Activate, bucket by bucket *)

(** X2: whatever the storage answers, the activate phase never deletes the
    bucket of the current generation, and it leaves every bucket either
    gone (its deletion was started and carried out) or exactly as it was. *)
Theorem activate_bucket_by_bucket (env : Env) (w : World) :
  bucket CACHE_NAME (storage (snd (activate_listener env w)))
  = bucket CACHE_NAME (storage w)
  /\ forall n,
       bucket n (storage (snd (activate_listener env w)))
       = if deleted env n then None else bucket n (storage w).
Proof.
  assert (H : forall n,
             bucket n (storage (snd (activate_listener env w)))
             = if deleted env n then None else bucket n (storage w)).
  { intros n. rewrite activate_storage. unfold bucket.
    rewrite (assoc_get_filter_names (fun m => negb (deleted env m)) n).
    now destruct (deleted env n). }
  split; [|exact H].
  rewrite H. unfold deleted, stale. now rewrite String.eqb_refl.
Qed.

(** X3: activating again changes nothing in the storage: what the first
    activation left is what the second leaves. *)
Theorem activate_twice (env : Env) (w : World) :
  storage (snd (activate_listener env (snd (activate_listener env w))))
  = storage (snd (activate_listener env w)).
Proof.
  rewrite (activate_storage env (snd (activate_listener env w))).
  rewrite activate_storage, filter_filter.
  apply filter_ext. intros e. apply andb_diag.
Qed.

(** ** Install, on any storage *)

Lemma install_storage (env : Env) (w : World) :
  storage (snd (install_listener env w)) =
  match addAll_entries env CACHE_NAME urlsToCache with
  | Fulfilled es =>
      assoc_update CACHE_NAME (bucket_put_all es)
        (storage (snd (caches_open CACHE_NAME env w)))
  | Rejected _ => storage (snd (caches_open CACHE_NAME env w))
  end.
Proof.
  destruct (addAll_entries env CACHE_NAME urlsToCache) as [es|e] eqn:E.
  - rewrite (install_fulfilled_seed env w es E). cbv zeta.
    cbn [snd storage skipWaiting set_storage].
    now rewrite storage_emit_all.
  - rewrite (install_rejected_seed env w e E).
    cbn [snd storage skipWaiting emit]. now rewrite storage_emit_all.
Qed.

Lemma addAll_entries_keys (env : Env) (name : string) (urls : list string)
  (es : list (string * Response)) :
  addAll_entries env name urls = Fulfilled es ->
  map fst es = urls
  /\ Forall (fun e => network env (fst e) = Some (snd e) /\ ok (snd e) = true)
       es.
Proof.
  revert es. induction urls as [|u urls IH]; intros es; simpl.
  - intros [= <-]. split; [reflexivity | constructor].
  - destruct (network env u) as [r|] eqn:N; [|discriminate].
    destruct (addAll_accepts r) eqn:O; simpl; [|discriminate].
    apply andb_true_iff in O as [O _].
    destruct (put_ok env name u); simpl; [|discriminate].
    destruct (addAll_entries env name urls) as [es'|]; [|discriminate].
    intros [= <-]. destruct (IH es' eq_refl) as [Hk Hf].
    split; [simpl; now rewrite Hk|].
    constructor; [now split | exact Hf].
Qed.

(** X4: install touches the seed entries of the bucket of the current
    generation and nothing else: every other bucket is as it was, and so
    is every entry of the current bucket stored under a URL that is not a
    seed URL, whether the seed operation succeeds or fails. *)
Theorem install_frame (env : Env) (w : World) :
  (forall n, n <> CACHE_NAME ->
     bucket n (storage (snd (install_listener env w)))
     = bucket n (storage w))
  /\ (forall k, ~ In k urlsToCache ->
      cache_lookup CACHE_NAME k (storage (snd (install_listener env w)))
      = cache_lookup CACHE_NAME k (storage w)).
Proof.
  rewrite install_storage.
  destruct (addAll_entries env CACHE_NAME urlsToCache) as [es|e] eqn:E.
  - destruct (addAll_entries_keys env _ _ es E) as [Hk _].
    split.
    + intros n Hn. unfold bucket at 1.
      rewrite (assoc_get_update_other n CACHE_NAME _ _ Hn).
      now apply caches_open_other.
    + intros k Hnot. unfold cache_lookup, content at 1, bucket at 1.
      rewrite assoc_get_update_same.
      fold (bucket CACHE_NAME (storage (snd (caches_open CACHE_NAME env w)))).
      rewrite caches_open_content. simpl.
      apply bucket_put_all_get_other. now rewrite Hk.
  - split.
    + intros n Hn. now apply caches_open_other.
    + intros k _. unfold cache_lookup, content at 1.
      now rewrite caches_open_content.
Qed.

Lemma install_frame_witness :
  bucket "angaza-creatives-v0"
    (storage (snd (install_listener logo_missing (world_of three_generations))))
  = Some [("/", page "/")].
Proof.
  destruct (install_frame logo_missing (world_of three_generations))
    as [H _].
  rewrite H by discriminate. reflexivity.
Defined.

Lemma bucket_put_all_get_seed (env : Env) (u : string)
  (es : list (string * Response)) (c : Cache) :
  Forall (fun e => network env (fst e) = Some (snd e) /\ ok (snd e) = true) es ->
  In u (map fst es) ->
  assoc_get u (bucket_put_all es c) = network env u.
Proof.
  unfold bucket_put_all. revert c.
  induction es as [|[key r] es IH]; intros c Hf Hin; [contradiction|].
  inversion Hf as [|? ? [Hn _] Hf']; subst. simpl in *.
  destruct (in_dec String.string_dec u (map fst es)) as [Hu|Hu].
  - now apply IH.
  - destruct Hin as [->|Hin]; [|contradiction].
    fold (bucket_put_all es (bucket_put u r c)).
    rewrite (bucket_put_all_get_other u es _ Hu), bucket_put_get.
    now rewrite Hn.
Qed.

Lemma install_seed_lookup (env : Env) (w : World) (u : string) :
  all_seeds_ok env = true ->
  In u urlsToCache ->
  cache_lookup CACHE_NAME u (storage (snd (install_listener env w)))
  = network env u.
Proof.
  intros Hall Hu.
  destruct (addAll_entries_all_ok env urlsToCache Hall) as (es & E & Hk & _).
  destruct (addAll_entries_keys env _ _ es E) as [_ Hf].
  rewrite install_storage, E.
  unfold cache_lookup, content, bucket. rewrite assoc_get_update_same.
  fold (bucket CACHE_NAME (storage (snd (caches_open CACHE_NAME env w)))).
  rewrite caches_open_content. simpl.
  apply bucket_put_all_get_seed; [exact Hf | now rewrite Hk].
Qed.

(** X5: on any storage, an install whose seed assets are all fetched with
    a status [addAll] takes (ok, and not 206) and taken by the storage
    leaves, under every seed URL of the bucket of the current generation,
    the response the network gave. *)
Theorem install_stores_every_seed (env : Env) (w : World) (u : string) :
  all_seeds_ok env = true ->
  In u urlsToCache ->
  cache_lookup CACHE_NAME u (storage (snd (install_listener env w)))
  = network env u.
Proof. apply install_seed_lookup. Qed.

Lemma install_stores_every_seed_witness :
  cache_lookup CACHE_NAME "/static/css/style.css"
    (storage (snd (install_listener online (world_of three_generations))))
  = Some (page "/static/css/style.css").
Proof.
  apply (install_stores_every_seed online (world_of three_generations)
           "/static/css/style.css" eq_refl).
  right. now left.
Defined.

(** ** Fetch: what a handled request leaves behind *)

Lemma content_update (name : string) (f : Cache -> Cache) (st : CacheStorage) :
  content name (assoc_update name f st)
  = match bucket name st with Some c => f c | None => [] end.
Proof.
  unfold content, bucket. rewrite assoc_get_update_same.
  now destruct (assoc_get name st).
Qed.

Lemma run_task_content (name : string) (request : Request) (copy : Response)
  (env : Env) (w : World) :
  content name (storage (run_task (StoreTask name request copy) env w)) =
  if put_ok env name (url request)
  then match bucket name (storage w) with
       | Some c => bucket_put (url request) copy c
       | None => []
       end
  else content name (storage w).
Proof.
  rewrite run_task_store_storage.
  destruct (put_ok env name (url request)); [|reflexivity].
  apply content_update.
Qed.

Lemma run_task_bucket_other (n name : string) (request : Request)
  (copy : Response) (env : Env) (w : World) :
  n <> name ->
  bucket n (storage (run_task (StoreTask name request copy) env w))
  = bucket n (storage w).
Proof.
  intros H. rewrite run_task_store_storage.
  destruct (put_ok env name (url request)); [|reflexivity].
  unfold bucket. now apply assoc_get_update_other.
Qed.

Lemma run_task_lookup_other (n k name : string) (request : Request)
  (copy : Response) (env : Env) (w : World) :
  n <> name \/ k <> url request ->
  cache_lookup n k (storage (run_task (StoreTask name request copy) env w))
  = cache_lookup n k (storage w).
Proof.
  intros H. unfold cache_lookup.
  destruct (String.eqb_spec n name) as [->|Hn].
  - destruct H as [H|H]; [now elim H|].
    rewrite run_task_content.
    destruct (put_ok env name (url request)); [|reflexivity].
    unfold content. destruct (bucket name (storage w)); [|reflexivity].
    now apply bucket_put_get_other.
  - unfold content. now rewrite run_task_bucket_other.
Qed.

Lemma settle_pending_idle (env : Env) (w : World) :
  pending w = [] -> storage (settle_pending env w) = storage w.
Proof. intros H. unfold settle_pending. now rewrite H. Qed.

(** The world the listener leaves, case by case. *)
Lemma fetch_listener_cases (request : Request) (env : Env) (w : World) :
  snd (fetch_listener request env w) = w
  \/ (storage (snd (fetch_listener request env w)) = storage w
      /\ pending (snd (fetch_listener request env w)) = pending w)
  \/ exists r w1,
       network env (url request) = Some r
       /\ cacheable request r = true
       /\ storage w1 = storage w /\ pending w1 = pending w
       /\ snd (fetch_listener request env w)
          = detach (StoreTask CACHE_NAME request r)
              (snd (caches_open CACHE_NAME env w1)).
Proof.
  destruct (String.eqb_spec (method request) "GET") as [Hm|Hm];
    [|left; now rewrite fetch_listener_pass_through by now left].
  destruct (startsWith (url request) "chrome-extension://") eqn:Hc;
    [left; now rewrite fetch_listener_pass_through by now right|].
  destruct (network env (url request)) as [r|] eqn:Hn.
  - rewrite (fetch_listener_response request env w r Hm Hc Hn).
    cbv zeta. cbn [snd].
    destruct (cacheable request r) eqn:C.
    + right. right. exists r.
      exists (emit (EvClone (url request)) (emit (EvNetwork (url request)) w)).
      repeat split. exact C.
    + right. left. now split.
  - rewrite (fetch_listener_failure request env w Hm Hc Hn).
    cbv zeta. cbn [snd]. right. left.
    destruct (storage_match _ _); [now split|].
    destruct (mode request =? "navigate"); now split.
Qed.

(** X6: handling a request, the detached store included, changes at most
    one entry of the storage: the one of the bucket of the current
    generation under the URL of the request. Every other bucket and every
    other entry is as it was. *)
Theorem fetch_frame (request : Request) (env : Env) (w : World)
  (n k : string) :
  pending w = [] ->
  n <> CACHE_NAME \/ k <> url request ->
  cache_lookup n k (storage (handled request env w))
  = cache_lookup n k (storage w).
Proof.
  intros Hp H. unfold handled.
  destruct (fetch_listener_cases request env w)
    as [-> | [[Hs Hp'] | (r & w1 & _ & _ & Hs & Hp' & ->)]].
  - now rewrite settle_pending_idle.
  - rewrite settle_pending_idle by congruence. now rewrite Hs.
  - rewrite settle_pending_detach, run_task_lookup_other by exact H.
    rewrite settle_pending_idle by (rewrite caches_open_pending; congruence).
    rewrite caches_open_lookup. unfold cache_lookup, content.
    now rewrite Hs.
Qed.

Lemma fetch_frame_witness :
  cache_lookup CACHE_NAME "/"
    (storage (handled (resource "/static/js/main.js") online
                (world_of three_generations)))
  = Some (page "/").
Proof.
  rewrite (fetch_frame (resource "/static/js/main.js") online
             (world_of three_generations) CACHE_NAME "/" eq_refl).
  - reflexivity.
  - right. discriminate.
Defined.

(** ** Only the current bucket *)

Lemma caches_open_only_current (env : Env) (w : World) :
  only_current (storage w) ->
  only_current (storage (snd (caches_open CACHE_NAME env w))).
Proof.
  unfold only_current, bucket_names, caches_open. cbn [storage emit].
  intros H. destruct (assoc_has CACHE_NAME (storage w));
    cbn [snd storage set_storage emit]; [exact H|].
  intros n Hn. rewrite map_app in Hn. apply in_app_or in Hn as [Hn|Hn].
  - now apply H.
  - destruct Hn as [<-|[]]. reflexivity.
Qed.

Lemma install_only_current (env : Env) (w : World) :
  only_current (storage w) ->
  only_current (storage (snd (install_listener env w))).
Proof.
  intros H. apply (caches_open_only_current env) in H.
  rewrite install_storage.
  destruct (addAll_entries env CACHE_NAME urlsToCache); [|exact H].
  unfold only_current, bucket_names. now rewrite assoc_update_names.
Qed.

Lemma fetch_listener_only_current (request : Request) (env : Env)
  (w : World) :
  only_current (storage w) ->
  only_current (storage (snd (fetch_listener request env w))).
Proof.
  intros H.
  destruct (fetch_listener_cases request env w)
    as [-> | [[Hs _] | (r & w1 & _ & _ & Hs & _ & ->)]].
  - exact H.
  - now rewrite Hs.
  - cbn [storage detach]. apply caches_open_only_current. now rewrite Hs.
Qed.

Lemma handled_only_current (request : Request) (env : Env) (w : World) :
  only_current (storage w) -> only_current (storage (handled request env w)).
Proof.
  intros H. unfold handled, only_current. rewrite settle_pending_names.
  now apply fetch_listener_only_current.
Qed.

Lemma storage_match_lookup (key : string) (st : CacheStorage) :
  wf_storage st -> only_current st ->
  storage_match key st = cache_lookup CACHE_NAME key st.
Proof. intros Hwf Hall. now apply storage_match_current_only. Qed.

(** ** Online, then offline *)

(** X7: what was fetched online is served offline. With the bucket of the
    current generation the only one, a static-path GET request answered
    with status 200, its store accepted, gets that very response when it
    is made again and the network fails. *)
Theorem cached_then_served_offline (request : Request) (env env' : Env)
  (w : World) (r : Response) :
  wf_storage (storage w) -> only_current (storage w) ->
  method request = "GET" ->
  startsWith (url request) "chrome-extension://" = false ->
  includes (url request) "/static/" = true ->
  network env (url request) = Some r -> status r = 200%Z ->
  put_ok env CACHE_NAME (url request) = true ->
  network env' (url request) = None ->
  fst (fetch_listener request env' (handled request env w))
  = RespondWith (Fulfilled (Some r)).
Proof.
  intros Hwf Hall Hm Hc Hs Hn H200 Hput Hoff.
  rewrite (fetch_listener_failure request env' _ Hm Hc Hoff). cbn [fst].
  unfold code_fallback.
  rewrite (storage_match_lookup _ _ (handled_wf request env w Hwf)
             (handled_only_current request env w Hall)).
  assert (Hst : exists c,
             bucket CACHE_NAME (storage (handled request env w)) = Some c
             /\ assoc_get (url request) c = Some r).
  { unfold handled.
    rewrite (fetch_listener_response request env w r Hm Hc Hn).
    cbv zeta. cbn [snd]. unfold cacheable. rewrite H200, Hs.
    cbn [Z.eqb Pos.eqb andb]. now apply stored_after_detach. }
  destruct Hst as (c & Hb & Hg).
  unfold cache_lookup, content. now rewrite Hb, Hg.
Qed.

Lemma cached_then_served_offline_witness :
  fst (fetch_listener (resource "/static/js/main.js") offline
         (handled (resource "/static/js/main.js") online empty_world))
  = RespondWith (Fulfilled (Some (page "/static/js/main.js"))).
Proof.
  apply cached_then_served_offline; try reflexivity.
  - constructor.
  - intros n [].
Defined.

(** X8: after an install that stored the seed assets, an offline
    navigation the listener intercepts always gets a page. With the bucket
    of the current generation the only one, a GET navigation request
    whose URL does not start with ["chrome-extension://"], made while the
    network fails, is answered with the entry stored for its URL, if there
    is one, and with the root document the install fetched otherwise. *)
Theorem offline_navigation_after_install (request : Request)
  (env env' : Env) (w : World) :
  wf_storage (storage w) -> only_current (storage w) ->
  all_seeds_ok env = true ->
  method request = "GET" ->
  startsWith (url request) "chrome-extension://" = false ->
  mode request = "navigate" ->
  network env' (url request) = None ->
  exists root,
    network env "/" = Some root
    /\ fst (fetch_listener request env' (snd (install_listener env w)))
       = RespondWith
           (Fulfilled
              (Some
                 match cache_lookup CACHE_NAME (url request)
                         (storage (snd (install_listener env w))) with
                 | Some e => e
                 | None => root
                 end)).
Proof.
  intros Hwf Hall Hseeds Hm Hc Hnav Hoff.
  pose proof (install_seed_lookup env w "/" Hseeds (or_introl eq_refl))
    as Hroot.
  assert (Hex : exists root, network env "/" = Some root).
  { unfold all_seeds_ok in Hseeds. simpl in Hseeds.
    apply andb_true_iff in Hseeds as [H _]. unfold seed_ok in H.
    destruct (network env "/") as [root|]; [now exists root | discriminate]. }
  destruct Hex as [root Hnet]. exists root. split; [exact Hnet|].
  rewrite (fetch_listener_failure request env' _ Hm Hc Hoff). cbn [fst].
  unfold code_fallback.
  rewrite !(storage_match_lookup _ _ (install_listener_wf env w Hwf)
              (install_only_current env w Hall)).
  rewrite Hnav, String.eqb_refl, Hroot, Hnet.
  now destruct (cache_lookup CACHE_NAME (url request) _).
Qed.

Lemma offline_navigation_after_install_witness :
  fst (fetch_listener (navigate "/products/notebooks/") offline
         (snd (install_listener online empty_world)))
  = RespondWith (Fulfilled (Some (page "/"))).
Proof.
  destruct (offline_navigation_after_install
              (navigate "/products/notebooks/") online offline empty_world)
    as (root & Hroot & ->); try reflexivity.
  - constructor.
  - intros n [].
  - injection Hroot as <-. reflexivity.
Defined.

(** ** Activation, then offline *)

Lemma activate_storage_all_deleted (env : Env) (w : World) :
  (forall n, In n (stale_names (storage w)) -> delete_ok env n = true) ->
  storage (snd (activate_listener env w))
  = filter (fun e => fst e =? CACHE_NAME) (storage w).
Proof.
  intros Hok. rewrite activate_storage. apply filter_ext_in.
  intros e He. unfold deleted.
  destruct (stale (fst e)) eqn:S.
  - rewrite Hok.
    + unfold stale in S. apply negb_true_iff in S. now rewrite S.
    + apply stale_names_In. split; [|exact S].
      unfold bucket_names. now apply in_map.
  - unfold stale in S. apply negb_false_iff in S. now rewrite S.
Qed.

(** X9: after an activation whose deletions the storage carried out, a
    stale bucket never answers. An intercepted GET request made while the
    network fails gets the three-step fallback on the bucket of the
    current generation, with the content that bucket had before the
    activation. *)
Theorem offline_fallback_after_activation (request : Request)
  (env env' : Env) (w : World) :
  wf_storage (storage w) ->
  (forall n, In n (stale_names (storage w)) -> delete_ok env n = true) ->
  method request = "GET" ->
  startsWith (url request) "chrome-extension://" = false ->
  network env' (url request) = None ->
  fst (fetch_listener request env' (snd (activate_listener env w)))
  = RespondWith (Fulfilled (spec_fallback request (storage w))).
Proof.
  intros Hwf Hok Hm Hc Hoff.
  rewrite (fetch_listener_failure request env' _ Hm Hc Hoff). cbn [fst].
  assert (Hall : only_current (storage (snd (activate_listener env w)))).
  { rewrite (activate_storage_all_deleted env w Hok).
    intros n Hn. rewrite bucket_names_filter in Hn.
    apply filter_In in Hn as [_ Hn]. now apply String.eqb_eq. }
  pose proof (activate_listener_wf env w Hwf) as Hwf'.
  unfold code_fallback, spec_fallback.
  rewrite !(storage_match_current_only _ _ Hwf' Hall).
  rewrite (activate_storage_all_deleted env w Hok).
  unfold bucket. now rewrite assoc_get_filter_same.
Qed.

Lemma offline_fallback_after_activation_witness :
  fst (fetch_listener (navigate "/products/") offline
         (snd (activate_listener online (world_of three_generations))))
  = RespondWith (Fulfilled (Some (page "/"))).
Proof.
  rewrite (offline_fallback_after_activation (navigate "/products/")
             online offline (world_of three_generations)
             three_generations_wf (fun n _ => eq_refl)
             eq_refl eq_refl eq_refl).
  reflexivity.
Defined.

(** ** What the cache holds, over the life of the worker *)

Lemma pending_emit_all (es : list Event) (w : World) :
  pending (emit_all es w) = pending w.
Proof.
  unfold emit_all. revert w.
  induction es as [|e es IH]; intros w; simpl; [reflexivity|].
  now rewrite IH.
Qed.

Lemma install_pending (env : Env) (w : World) :
  pending (snd (install_listener env w)) = pending w.
Proof.
  assert (Ho : pending (snd (caches_open CACHE_NAME env w)) = pending w).
  { unfold caches_open. cbn [storage emit].
    now destruct (assoc_has CACHE_NAME (storage w)). }
  destruct (addAll_entries env CACHE_NAME urlsToCache) as [es|e] eqn:E.
  - rewrite (install_fulfilled_seed env w es E). cbv zeta.
    cbn [snd pending skipWaiting set_storage].
    now rewrite pending_emit_all.
  - rewrite (install_rejected_seed env w e E).
    cbn [snd pending skipWaiting emit]. now rewrite pending_emit_all.
Qed.

Lemma deletions_pending (env : Env) (names : list string) (w : World) :
  pending (snd (array_map delete_if_stale names env w)) = pending w.
Proof.
  revert w. induction names as [|n ns IH]; intros w; [reflexivity|].
  rewrite array_map_cons. cbn [snd]. rewrite IH.
  unfold delete_if_stale, caches_delete.
  destruct (negb (n =? CACHE_NAME)); [|reflexivity].
  cbv zeta. now destruct (delete_ok env n).
Qed.

Lemma activate_pending (env : Env) (w : World) :
  pending (snd (activate_listener env w)) = pending w.
Proof.
  rewrite activate_listener_eq. cbv zeta. cbn [snd].
  change (pending (claim ?x)) with (pending x).
  now rewrite deletions_pending.
Qed.

Lemma run_task_pending (t : Task) (env : Env) (w : World) :
  pending (run_task t env w) = pending w.
Proof.
  destruct t as [name request copy].
  unfold run_task, cache_put. cbn [storage emit].
  now destruct (put_ok env name (url request)).
Qed.

Lemma bucket_put_clean (key : string) (r : Response) (c : Cache) :
  entry_clean (key, r) -> Forall entry_clean c ->
  Forall entry_clean (bucket_put key r c).
Proof.
  intros He Hc. unfold bucket_put, assoc_remove.
  apply Forall_app. split; [|now constructor].
  apply Forall_forall. intros e Hin. apply filter_In in Hin as [Hin _].
  revert e Hin. now apply Forall_forall.
Qed.

Lemma bucket_put_all_clean (es : list (string * Response)) (c : Cache) :
  Forall entry_clean es -> Forall entry_clean c ->
  Forall entry_clean (bucket_put_all es c).
Proof.
  unfold bucket_put_all. revert c.
  induction es as [|[k r] es IH]; intros c Hes Hc; simpl; [exact Hc|].
  inversion Hes; subst. apply IH; [assumption|].
  now apply bucket_put_clean.
Qed.

Lemma install_content (env : Env) (w : World) :
  content CACHE_NAME (storage (snd (install_listener env w))) =
  match addAll_entries env CACHE_NAME urlsToCache with
  | Fulfilled es => bucket_put_all es (content CACHE_NAME (storage w))
  | Rejected _ => content CACHE_NAME (storage w)
  end.
Proof.
  rewrite install_storage.
  destruct (addAll_entries env CACHE_NAME urlsToCache).
  - unfold content at 1, bucket. rewrite assoc_get_update_same.
    fold (bucket CACHE_NAME (storage (snd (caches_open CACHE_NAME env w)))).
    now rewrite caches_open_content.
  - unfold content at 1. now rewrite caches_open_content.
Qed.

Lemma install_clean (env : Env) (w : World) :
  clean w -> clean (snd (install_listener env w)).
Proof.
  intros [Hc Hp]. split; [|now rewrite install_pending].
  rewrite install_content.
  destruct (addAll_entries env CACHE_NAME urlsToCache) as [es|e] eqn:E;
    [|exact Hc].
  destruct (addAll_entries_keys env _ _ es E) as [Hk Hf].
  apply bucket_put_all_clean; [|exact Hc].
  apply Forall_forall. intros x Hx. split.
  - rewrite Forall_forall in Hf. now apply Hf.
  - left. rewrite <- Hk. now apply in_map.
Qed.

Lemma activate_clean (env : Env) (w : World) :
  clean w -> clean (snd (activate_listener env w)).
Proof.
  intros [Hc Hp]. split; [|now rewrite activate_pending].
  unfold content. rewrite activate_storage. unfold bucket.
  rewrite (assoc_get_filter_names (fun m => negb (deleted env m)) CACHE_NAME).
  unfold deleted, stale. rewrite String.eqb_refl. exact Hc.
Qed.

Lemma fetch_clean (request : Request) (env : Env) (w : World) :
  clean w -> clean (snd (fetch_listener request env w)).
Proof.
  intros [Hc Hp].
  destruct (fetch_listener_cases request env w)
    as [-> | [[Hs Hp'] | (r & w1 & _ & C & Hs & Hp' & ->)]].
  - now split.
  - split; [now rewrite Hs | now rewrite Hp'].
  - split.
    { cbn [storage detach]. unfold content at 1.
      rewrite caches_open_content. unfold content. now rewrite Hs. }
    cbn [pending detach]. rewrite caches_open_pending, Hp'. apply Forall_app.
    split; [exact Hp|]. constructor; [|constructor].
    unfold cacheable in C. apply andb_true_iff in C as [C1 C2].
    apply Z.eqb_eq in C1. now repeat split.
Qed.

Lemma run_task_clean (t : Task) (env : Env) (w : World) :
  task_clean t -> Forall entry_clean (content CACHE_NAME (storage w)) ->
  Forall entry_clean (content CACHE_NAME (storage (run_task t env w))).
Proof.
  destruct t as [name request copy]. intros (-> & H200 & Hs) Hc.
  rewrite run_task_content.
  destruct (put_ok env CACHE_NAME (url request)); [|exact Hc].
  unfold content in Hc.
  destruct (bucket CACHE_NAME (storage w)) as [c|]; [|constructor].
  apply bucket_put_clean; [|exact Hc].
  split; [|now right]. unfold ok. cbn [snd]. now rewrite H200.
Qed.

Lemma settle_clean (env : Env) (w : World) :
  clean w -> clean (settle_pending env w).
Proof.
  intros [Hc Hp]. unfold settle_pending.
  assert (H0 : Forall entry_clean
                 (content CACHE_NAME (storage (set_pending [] w)))
               /\ pending (set_pending [] w) = []) by now split.
  revert H0. generalize (set_pending [] w).
  induction Hp as [|t ts Ht Hts IH]; intros w0 [H0 H1]; simpl.
  - split; [exact H0 | rewrite H1; constructor].
  - apply IH. split; [now apply run_task_clean|].
    now rewrite run_task_pending.
Qed.

Lemma worker_step_clean (env : Env) (s : Step) (w : World) :
  clean w -> clean (worker_step env s w).
Proof.
  destruct s; simpl.
  - apply install_clean.
  - apply activate_clean.
  - apply fetch_clean.
  - apply settle_clean.
Qed.

Lemma worker_run_clean (steps : list (Env * Step)) (w : World) :
  clean w -> clean (worker_run steps w).
Proof.
  unfold worker_run. revert w.
  induction steps as [|[env s] steps IH]; intros w H; simpl; [exact H|].
  apply IH. now apply worker_step_clean.
Qed.

Lemma assoc_get_In {V} (k : string) (v : V) (l : list (string * V)) :
  assoc_get k l = Some v -> In (k, v) l.
Proof.
  induction l as [|[k' v'] l IH]; simpl; [discriminate|].
  destruct (String.eqb_spec k' k) as [->|_].
  - intros [= ->]. now left.
  - intros H. right. now apply IH.
Qed.

(** X10: the bucket of the current generation never holds an error page, nor
    a page from outside the seed list and the static paths. Over any life of the worker that starts with no bucket
    (installs, activations, handled requests and detached stores, in any
    order and whatever the network and the storage answer), every entry of
    that bucket has an ok status (200 to 299) and sits under a seed URL or
    under a URL with ["/static/"] in it. *)
Theorem cache_stays_clean (steps : list (Env * Step)) (k : string)
  (e : Response) :
  cache_lookup CACHE_NAME k (storage (worker_run steps empty_world)) = Some e ->
  ok e = true /\ (In k urlsToCache \/ includes k "/static/" = true).
Proof.
  intros H.
  assert (Hclean : clean (worker_run steps empty_world)).
  { apply worker_run_clean. split; constructor. }
  destruct Hclean as [Hc _]. apply assoc_get_In in H.
  rewrite Forall_forall in Hc. exact (Hc (k, e) H).
Qed.

Lemma cache_stays_clean_witness :
  ok (page "/static/js/main.js") = true
  /\ (In "/static/js/main.js" urlsToCache
      \/ includes "/static/js/main.js" "/static/" = true).
Proof.
  apply (cache_stays_clean
           [(logo_missing, DoInstall);
            (online, DoFetch (resource "/static/js/main.js"));
            (online, DoFetch (resource "/api/currencies/"));
            (online, DoSettle);
            (stubborn_v0, DoActivate)]).
  reflexivity.
Defined.

(** * Properties of the page script *)

Import PageScript.

(** ** formatPrice *)

Lemma str_app_assoc (a b c : string) :
  ((a ++ b) ++ c)%string = (a ++ (b ++ c))%string.
Proof. induction a as [|x a IH]; simpl; [reflexivity | now rewrite IH]. Qed.

Lemma digit_not_dot (c : ascii) : is_digit c = true -> is_dot c = false.
Proof.
  intros H. unfold is_dot. destruct (Ascii.eqb_spec c ".") as [->|_];
    [discriminate H | reflexivity].
Qed.

Lemma triple_inv (t : string) :
  triple t ->
  exists a b c,
    t = String a (String b (String c EmptyString))
    /\ is_digit a = true /\ is_digit b = true /\ is_digit c = true.
Proof.
  intros [Hl Hd].
  destruct t as [|a [|b [|c [|d t]]]]; try discriminate Hl.
  simpl in Hd. apply andb_true_iff in Hd as [Ha Hd].
  apply andb_true_iff in Hd as [Hb Hd].
  apply andb_true_iff in Hd as [Hc _].
  now exists a, b, c.
Qed.

Lemma triples_then_dot_no_dot_aux (n : nat) :
  forall s, String.length s <= n -> no_dot s = true ->
            triples_then_dot s = false.
Proof.
  induction n as [|n IH]; intros s Hl Hd.
  - destruct s; [reflexivity | simpl in Hl; lia].
  - destruct s as [|a [|b [|c rest]]]; try reflexivity.
    cbn [triples_then_dot]. simpl in Hl, Hd.
    apply andb_true_iff in Hd as [_ Hd].
    apply andb_true_iff in Hd as [_ Hd].
    apply andb_true_iff in Hd as [_ Hd].
    rewrite (IH rest) by (lia || exact Hd).
    destruct rest as [|d rest]; [now rewrite andb_false_r|].
    simpl in Hd. apply andb_true_iff in Hd as [Hd _].
    apply negb_true_iff in Hd. rewrite Hd. now rewrite andb_false_r.
Qed.

Lemma triples_then_dot_no_dot (s : string) :
  no_dot s = true -> triples_then_dot s = false.
Proof. now apply (triples_then_dot_no_dot_aux (String.length s)). Qed.

Lemma group_thousands_no_dot (s : string) :
  no_dot s = true -> group_thousands s = s.
Proof.
  induction s as [|c s IH]; simpl; intros H; [reflexivity|].
  apply andb_true_iff in H as [_ H].
  rewrite (triples_then_dot_no_dot s H), andb_false_r. now rewrite IH.
Qed.

Lemma group_thousands_no_digit (sign s : string) :
  no_digit sign = true ->
  group_thousands (sign ++ s) = (sign ++ group_thousands s)%string.
Proof.
  induction sign as [|c sign IH]; simpl; intros H; [reflexivity|].
  apply andb_true_iff in H as [Hc H]. apply negb_true_iff in Hc.
  rewrite Hc. simpl. now rewrite IH.
Qed.

Lemma group_thousands_dot (frac : string) :
  no_dot frac = true ->
  group_thousands (String "." frac) = String "." frac.
Proof.
  intros H. cbn [group_thousands].
  change (is_digit ".") with false. cbn [andb].
  now rewrite group_thousands_no_dot.
Qed.

Lemma triples_then_dot_step (a b c : ascii) (rest : string) :
  triples_then_dot (String a (String b (String c rest))) =
  is_digit a && is_digit b && is_digit c &&
  (match rest with
   | String d _ => is_dot d
   | EmptyString => false
   end
   || triples_then_dot rest).
Proof. reflexivity. Qed.

Section Lookahead.
Variable frac : string.

Lemma lookahead_dot : triples_then_dot (String "." frac) = false.
Proof. now destruct frac as [|b [|c rest]]. Qed.

Lemma lookahead_one (x : ascii) :
  triples_then_dot (String x (String "." frac)) = false.
Proof.
  destruct frac as [|c rest]; [reflexivity|].
  cbn [triples_then_dot]. change (is_digit ".") with false.
  now rewrite andb_false_r.
Qed.

Lemma lookahead_two (x y : ascii) :
  triples_then_dot (String x (String y (String "." frac))) = false.
Proof.
  cbn [triples_then_dot]. change (is_digit ".") with false.
  now rewrite andb_false_r.
Qed.

(** With whole groups of three before the dot, the lookahead holds. *)
Lemma lookahead_groups (ts : list string) :
  Forall triple ts -> ts <> [] ->
  triples_then_dot (flat ts ++ String "." frac) = true.
Proof.
  induction 1 as [|t ts Ht Hts IH]; intros Hne; [now elim Hne|].
  destruct (triple_inv t Ht) as (a & b & c & -> & Ha & Hb & Hc).
  cbn [flat String.append]. rewrite triples_then_dot_step, Ha, Hb, Hc.
  cbn [andb]. destruct ts as [|t' ts].
  - reflexivity.
  - rewrite IH by discriminate. apply orb_true_r.
Qed.

(** With one or two digits more than whole groups, it does not. *)
Lemma lookahead_offset (ts : list string) :
  Forall triple ts ->
  (forall x, triples_then_dot (String x (flat ts ++ String "." frac)) = false)
  /\ (forall x y,
        triples_then_dot (String x (String y (flat ts ++ String "." frac)))
        = false).
Proof.
  induction 1 as [|t ts Ht Hts [IH1 IH2]].
  - split; [apply lookahead_one | apply lookahead_two].
  - destruct (triple_inv t Ht) as (a & b & c & -> & Ha & Hb & Hc).
    cbn [flat String.append]. split.
    + intros x. rewrite (triples_then_dot_step x a b).
      rewrite (digit_not_dot c Hc), IH1. now rewrite andb_false_r.
    + intros x y. rewrite (triples_then_dot_step x y a).
      rewrite (digit_not_dot b Hb), IH2. now rewrite andb_false_r.
Qed.

Lemma group_thousands_step (c : ascii) (s : string) :
  group_thousands (String c s) =
  if is_digit c && triples_then_dot s
  then String c (String "," (group_thousands s))
  else String c (group_thousands s).
Proof. reflexivity. Qed.

(** One, two or three digits, then whole groups, then the dot. *)
Lemma group_thousands_groups (ts : list string) :
  no_dot frac = true -> Forall triple ts ->
  (forall x, is_digit x = true ->
     group_thousands (String x (flat ts ++ String "." frac))
     = String x (with_commas ts ++ String "." frac))
  /\ (forall x y, is_digit x = true -> is_digit y = true ->
        group_thousands (String x (String y (flat ts ++ String "." frac)))
        = String x (String y (with_commas ts ++ String "." frac)))
  /\ (forall x y z,
        is_digit x = true -> is_digit y = true -> is_digit z = true ->
        group_thousands
          (String x (String y (String z (flat ts ++ String "." frac))))
        = String x
            (String y (String z (with_commas ts ++ String "." frac)))).
Proof.
  intros Hfrac. induction 1 as [|t ts Ht Hts (IH1 & IH2 & IH3)].
  - cbn [flat with_commas String.append].
    assert (H1 : forall x,
               group_thousands (String x (String "." frac))
               = String x (String "." frac)).
    { intros x. rewrite group_thousands_step, lookahead_dot, andb_false_r.
      now rewrite group_thousands_dot. }
    assert (H2 : forall x y,
               group_thousands (String x (String y (String "." frac)))
               = String x (String y (String "." frac))).
    { intros x y. rewrite group_thousands_step, lookahead_one, andb_false_r.
      now rewrite H1. }
    split; [intros x _; apply H1|].
    split; [intros x y _ _; apply H2|].
    intros x y z _ _ _.
    rewrite group_thousands_step, lookahead_two, andb_false_r.
    now rewrite H2.
  - pose proof (lookahead_groups (t :: ts) (Forall_cons _ Ht Hts)) as Hg.
    destruct (lookahead_offset (t :: ts) (Forall_cons _ Ht Hts)) as [Ho1 Ho2].
    destruct (triple_inv t Ht) as (a & b & c & -> & Ha & Hb & Hc).
    cbn [flat with_commas String.append] in *.
    assert (H1 : forall x, is_digit x = true ->
               group_thousands
                 (String x (String a (String b (String c
                    (flat ts ++ String "." frac)))))
               = String x (String "," (String a (String b (String c
                    (with_commas ts ++ String "." frac)))))).
    { intros x Hx. rewrite group_thousands_step, Hx, Hg by discriminate.
      cbn [andb]. now rewrite IH3. }
    assert (H2 : forall x y, is_digit x = true -> is_digit y = true ->
               group_thousands
                 (String x (String y (String a (String b (String c
                    (flat ts ++ String "." frac))))))
               = String x (String y (String "," (String a (String b (String c
                    (with_commas ts ++ String "." frac))))))).
    { intros x y Hx Hy. rewrite group_thousands_step, Ho1, andb_false_r.
      now rewrite H1. }
    split; [exact H1|]. split; [exact H2|].
    intros x y z Hx Hy Hz.
    rewrite group_thousands_step, Ho2, andb_false_r.
    now rewrite H2.
Qed.
End Lookahead.

(** X11: the price gets its thousands separators. When the number text has
    an integer part of one to three digits followed by groups of three
    digits, then a dot and a fraction, possibly after a sign, the
    formatted price is the currency symbol, the sign, the leading digits,
    every group with a comma before it, the dot and the fraction
    unchanged. *)
Theorem formatPrice_groups_thousands (sign h : string) (ts : list string)
  (frac : string) (currencySymbol : option string) :
  no_digit sign = true ->
  all_digits h = true ->
  1 <= String.length h <= 3 ->
  Forall triple ts ->
  no_dot frac = true ->
  formatPrice (sign ++ h ++ flat ts ++ "." ++ frac) currencySymbol
  = ((match currencySymbol with Some c => c | None => "$" end)
     ++ sign ++ h ++ with_commas ts ++ "." ++ frac)%string.
Proof.
  intros Hsign Hh Hlen Hts Hfrac. unfold formatPrice. f_equal.
  rewrite group_thousands_no_digit by exact Hsign. f_equal.
  destruct (group_thousands_groups frac ts Hfrac Hts) as (G1 & G2 & G3).
  destruct h as [|x [|y [|z [|u h]]]]; simpl in Hlen; try lia;
    simpl in Hh;
    repeat match goal with
           | H : _ && _ = true |- _ => apply andb_true_iff in H as [? H]
           end;
    cbn [String.append].
  - now apply G1.
  - now apply G2.
  - now apply G3.
Qed.

Lemma formatPrice_groups_thousands_witness :
  formatPrice "-1234567.50" None = "$-1,234,567.50"
  /\ formatPrice "999.99" (Some "UGX ") = "UGX 999.99".
Proof.
  split.
  - apply (formatPrice_groups_thousands "-" "1" ["234"; "567"] "50" None);
      try reflexivity.
    + simpl. lia.
    + repeat constructor.
  - apply (formatPrice_groups_thousands "" "999" [] "99" (Some "UGX "));
      try reflexivity.
    + simpl. lia.
    + constructor.
Defined.

Lemma remove_commas_app (a b : string) :
  remove_commas (a ++ b) = (remove_commas a ++ remove_commas b)%string.
Proof.
  induction a as [|c a IH]; simpl; [reflexivity|].
  destruct (Ascii.eqb c ","); simpl; now rewrite IH.
Qed.

Lemma remove_commas_group (s : string) :
  remove_commas (group_thousands s) = remove_commas s.
Proof.
  induction s as [|c s IH]; [reflexivity|].
  rewrite group_thousands_step.
  destruct (is_digit c && triples_then_dot s); simpl;
    destruct (Ascii.eqb c ","); now rewrite IH.
Qed.

(** X12: formatting only adds commas. Taking the commas out of the
    formatted price gives back the currency symbol followed by the number
    text, when these have no comma of their own: no digit, sign or dot is
    lost, moved or changed. *)
Theorem formatPrice_only_adds_commas (fixed : string)
  (currencySymbol : option string) :
  let symbol := match currencySymbol with Some c => c | None => "$" end in
  remove_commas symbol = symbol ->
  remove_commas fixed = fixed ->
  remove_commas (formatPrice fixed currencySymbol) = (symbol ++ fixed)%string.
Proof.
  intros symbol Hs Hf. unfold formatPrice. fold symbol.
  now rewrite remove_commas_app, remove_commas_group, Hs, Hf.
Qed.

Lemma formatPrice_only_adds_commas_witness :
  remove_commas (formatPrice "1234567.891" (Some "KSh")) = "KSh1234567.891".
Proof.
  apply (formatPrice_only_adds_commas "1234567.891" (Some "KSh"));
    reflexivity.
Defined.

(** X13: a number text without a dot is left as it is, whatever its
    length: this is what happens to ["NaN"] (a price that is not a
    number), to ["Infinity"] and to the exponent form of very large
    numbers. *)
Theorem formatPrice_without_dot (fixed : string)
  (currencySymbol : option string) :
  no_dot fixed = true ->
  formatPrice fixed currencySymbol
  = ((match currencySymbol with Some c => c | None => "$" end)
     ++ fixed)%string.
Proof.
  intros H. unfold formatPrice. now rewrite group_thousands_no_dot.
Qed.

Lemma formatPrice_without_dot_witness :
  formatPrice "NaN" None = "$NaN" /\ formatPrice "1e+21" None = "$1e+21".
Proof.
  split; apply formatPrice_without_dot; reflexivity.
Defined.

(** ** applyFilters *)

(** The pairs whose name passes [P], in order. *)
Section Keep.
Variable P : string -> bool.

Lemma keep_delete (name : string) (ps : SearchParams) :
  P name = false -> filter (fun p => P (fst p)) (params_delete name ps) = filter (fun p => P (fst p)) ps.
Proof.
  intros H. unfold params_delete. rewrite filter_filter.
  apply filter_ext. intros [n v]. simpl.
  destruct (String.eqb_spec n name) as [->|_]; [now rewrite H | reflexivity].
Qed.

Lemma keep_append (name value : string) (ps : SearchParams) :
  P name = false -> filter (fun p => P (fst p)) (params_append name value ps) = filter (fun p => P (fst p)) ps.
Proof.
  intros H. unfold params_append. rewrite filter_app. simpl.
  rewrite H. apply app_nil_r.
Qed.

Lemma keep_append_all (name : string) (values : list string)
  (ps : SearchParams) :
  P name = false ->
  filter (fun p => P (fst p)) (fold_left (fun acc v => params_append name v acc) values ps)
  = filter (fun p => P (fst p)) ps.
Proof.
  intros H. revert ps.
  induction values as [|v values IH]; intros ps; simpl; [reflexivity|].
  now rewrite IH, keep_append.
Qed.

Lemma keep_set (name value : string) (ps : SearchParams) :
  P name = false -> filter (fun p => P (fst p)) (params_set name value ps) = filter (fun p => P (fst p)) ps.
Proof.
  intros H. induction ps as [|[n v] ps IH]; simpl; [now rewrite H|].
  destruct (String.eqb_spec n name) as [->|_]; simpl.
  - rewrite H. now apply keep_delete.
  - now rewrite IH.
Qed.

Lemma keep_set_or_delete (name : string) (input : option string)
  (ps : SearchParams) :
  P name = false -> filter (fun p => P (fst p)) (set_or_delete name input ps) = filter (fun p => P (fst p)) ps.
Proof.
  intros H. unfold set_or_delete.
  destruct input as [value|]; [|now apply keep_delete].
  destruct (negb (value =? "")); [now apply keep_set | now apply keep_delete].
Qed.
End Keep.

Lemma getAll_delete_same (name : string) (ps : SearchParams) :
  params_getAll name (params_delete name ps) = [].
Proof.
  unfold params_getAll, params_delete. rewrite filter_filter.
  induction ps as [|[n v] ps IH]; simpl; [reflexivity|].
  now destruct (n =? name).
Qed.

Lemma getAll_append_all_same (name : string) (values : list string)
  (ps : SearchParams) :
  params_getAll name
    (fold_left (fun acc v => params_append name v acc) values ps)
  = params_getAll name ps ++ values.
Proof.
  revert ps. induction values as [|v values IH]; intros ps; simpl.
  - now rewrite app_nil_r.
  - rewrite IH. unfold params_getAll, params_append.
    rewrite filter_app, map_app. simpl. rewrite String.eqb_refl. simpl.
    now rewrite <- app_assoc.
Qed.

Lemma getAll_set_same (name value : string) (ps : SearchParams) :
  params_getAll name (params_set name value ps) = [value].
Proof.
  induction ps as [|[n v] ps IH]; simpl.
  - unfold params_getAll. simpl. now rewrite String.eqb_refl.
  - destruct (String.eqb_spec n name) as [->|Hne].
    + unfold params_getAll. simpl. rewrite String.eqb_refl. simpl.
      f_equal. apply (getAll_delete_same name ps).
    + unfold params_getAll in *. simpl.
      destruct (String.eqb_spec n name) as [e|_]; [now elim Hne | exact IH].
Qed.

Lemma getAll_set_or_delete_same (name : string) (input : option string)
  (ps : SearchParams) :
  params_getAll name (set_or_delete name input ps) = price_values input.
Proof.
  unfold set_or_delete, price_values.
  destruct input as [value|]; [|apply getAll_delete_same].
  destruct (value =? ""); simpl;
    [apply getAll_delete_same | apply getAll_set_same].
Qed.

(** Reading the values of one name as a selection by name. *)
Ltac by_name name :=
  let P := fresh "P" in
  unfold params_getAll;
  pose (P := fun n : string => n =? name);
  change (fun p : string * string => fst p =? name)
    with (fun p : string * string => P (fst p)).

Ltac back_to_getAll :=
  match goal with
  | P := _ |- _ => subst P; cbv beta
  end;
  match goal with
  | |- context [map snd (filter (fun p => fst p =? ?n) ?x)] =>
      change (map snd (filter (fun p => fst p =? n) x))
        with (params_getAll n x)
  end.

(** X14: the URL the page is sent to says what the sidebar says. After
    [applyFilters], the values under [category] and [cover_type] are the
    values of the checked boxes, in their order, whatever the URL had
    before; [min_price] and [max_price] have the value of their input, once,
    when it is filled in, and are absent when it is empty or not on the
    page. *)
Theorem applyFilters_reflects_form (form : FilterForm) (search : SearchParams) :
  params_getAll "category" (applyFilters form search) = category_checked form
  /\ params_getAll "cover_type" (applyFilters form search)
     = cover_type_checked form
  /\ params_getAll "min_price" (applyFilters form search)
     = price_values (minPrice form)
  /\ params_getAll "max_price" (applyFilters form search)
     = price_values (maxPrice form).
Proof.
  unfold applyFilters. cbv zeta. repeat split.
  - by_name "category".
    rewrite keep_append_all, keep_delete, !keep_set_or_delete by reflexivity.
    back_to_getAll.
    now rewrite getAll_append_all_same, getAll_delete_same.
  - now rewrite getAll_append_all_same, getAll_delete_same.
  - by_name "min_price".
    rewrite keep_append_all, keep_delete, keep_set_or_delete by reflexivity.
    back_to_getAll. apply getAll_set_or_delete_same.
  - by_name "max_price".
    rewrite keep_append_all, keep_delete by reflexivity.
    back_to_getAll. apply getAll_set_or_delete_same.
Qed.

(** X15: [applyFilters] leaves the rest of the query alone. Every
    parameter that is not one of [category], [min_price], [max_price] and
    [cover_type] (the search text, the sort order, the page number) is
    kept, with its values, its duplicates and its order. *)
Theorem applyFilters_keeps_other_parameters (form : FilterForm)
  (search : SearchParams) :
  filter (fun p => negb (is_filter_name (fst p))) (applyFilters form search)
  = filter (fun p => negb (is_filter_name (fst p))) search.
Proof.
  unfold applyFilters. cbv zeta.
  pose (P := fun n => negb (is_filter_name n)).
  change (fun p : string * string => negb (is_filter_name (fst p)))
    with (fun p : string * string => P (fst p)).
  rewrite keep_append_all, keep_delete, !keep_set_or_delete,
    keep_append_all, keep_delete by reflexivity.
  reflexivity.
Qed.

(** ** debounce *)

Section DebounceFacts.
Context {A : Type}.
Variable wait : nat.

Lemma burst_keeps_waiting (calls : list (nat * A)) (d : Debounced A)
  (a : A) :
  timeout d = Some (clock d + wait, a) ->
  Forall (fun c => fst c < wait) calls ->
  timeout (burst wait calls d)
  = Some (clock d + list_sum (map fst calls) + wait, last_call a calls)
  /\ fired (burst wait calls d) = fired d
  /\ clock (burst wait calls d) = clock d + list_sum (map fst calls).
Proof.
  intros Ht Hc. revert d a Ht.
  induction Hc as [|[ms a'] calls Hms Hc IH]; intros d a Ht.
  - simpl. rewrite Ht, Nat.add_0_r. now repeat split.
  - unfold burst, last_call in *. cbn [fold_left fst snd map list_sum].
    set (d1 := executedFunction wait a' (elapse ms d)).
    assert (H1 : timeout d1 = Some (clock d1 + wait, a')) by reflexivity.
    assert (Hclock : clock d1 = clock d + ms).
    { unfold d1, executedFunction, elapse. cbn [clock]. rewrite Ht.
      now destruct (_ <=? _)%nat. }
    assert (Hfired : fired d1 = fired d).
    { unfold d1, executedFunction, elapse. cbn [fired]. rewrite Ht.
      simpl in Hms.
      destruct (Nat.leb_spec (clock d + wait) (clock d + ms)); [lia|].
      reflexivity. }
    destruct (IH d1 a' H1) as (Ht' & Hf' & Hc').
    rewrite Ht', Hf', Hc', Hclock, Hfired.
    unfold list_sum. cbn [fold_right].
    split; [|split]; [|reflexivity|lia].
    f_equal. f_equal. lia.
Qed.

(** X16: of a burst of calls only the last one goes through. When the
    debounced function is called again and again, each call less than
    [wait] after the one before, and then left alone for [wait] or more,
    [func] is called exactly once, with the arguments of the last call,
    [wait] after that call; no timer stays armed. *)
Theorem debounce_burst (first : A) (calls : list (nat * A)) (pause : nat)
  (d : Debounced A) :
  Forall (fun c => fst c < wait) calls ->
  wait <= pause ->
  let d' := elapse pause (burst wait calls (executedFunction wait first d)) in
  fired d'
  = fired d
    ++ [(clock d + list_sum (map fst calls) + wait, last_call first calls)]
  /\ timeout d' = None.
Proof.
  intros Hc Hp d'.
  destruct (burst_keeps_waiting calls (executedFunction wait first d) first
              eq_refl Hc) as (Ht & Hf & Hk).
  unfold d', elapse. rewrite Ht, Hf, Hk. cbn [clock fired executedFunction].
  destruct (Nat.leb_spec (clock d + list_sum (map fst calls) + wait)
              (clock d + list_sum (map fst calls) + pause)); [|lia].
  now split.
Qed.

(** X17: calls far apart all go through. When every call is followed by a
    pause of [wait] or more, [func] is called once for each call, in
    order, with that call's arguments. *)
Theorem debounce_spaced (calls : list (A * nat)) (d : Debounced A) :
  Forall (fun c => wait <= snd c) calls ->
  map snd (fired (spaced wait calls d))
  = map snd (fired d) ++ map fst calls.
Proof.
  intros Hc. revert d.
  induction Hc as [|[a p] calls Hp Hc IH]; intros d.
  - simpl. now rewrite app_nil_r.
  - unfold spaced in *. cbn [fold_left fst snd map]. rewrite IH.
    unfold elapse, executedFunction. cbn [clock timeout fired].
    simpl in Hp. destruct (Nat.leb_spec (clock d + wait) (clock d + p));
      [|lia].
    cbn [fired]. rewrite map_app. simpl. now rewrite <- app_assoc.
Qed.
End DebounceFacts.

Lemma debounce_burst_witness :
  fired
    (elapse 300
       (burst 300 [(100, "no"); (250, "not"); (299, "note")]
          (executedFunction 300 "n" (mkDebounced 0 None []))))
  = [(949, "note")].
Proof.
  destruct (debounce_burst 300 "n" [(100, "no"); (250, "not"); (299, "note")]
              300 (mkDebounced 0 None [])) as [H _].
  - repeat constructor.
  - lia.
  - exact H.
Defined.

Lemma debounce_spaced_witness :
  map snd
    (fired (spaced 300 [("pen", 300); ("ink", 1000)] (mkDebounced 0 None [])))
  = ["pen"; "ink"].
Proof.
  apply (debounce_spaced 300 [("pen", 300); ("ink", 1000)]
           (mkDebounced 0 None [])).
  repeat constructor; simpl; lia.
Defined.

(** ** toggleWishlist *)

Lemma classList_contains_add_same (t : string) (cl : list string) :
  classList_contains t (classList_add t cl) = true.
Proof.
  unfold classList_add. destruct (classList_contains t cl) eqn:E; [exact E|].
  unfold classList_contains. rewrite existsb_app. simpl.
  rewrite String.eqb_refl. now rewrite orb_true_r.
Qed.

Lemma classList_contains_add_other (c t : string) (cl : list string) :
  c <> t -> classList_contains c (classList_add t cl) = classList_contains c cl.
Proof.
  intros H. unfold classList_add.
  destruct (classList_contains t cl); [reflexivity|].
  unfold classList_contains. rewrite existsb_app. simpl.
  destruct (String.eqb_spec c t) as [e|_]; [now elim H|].
  now rewrite !orb_false_r.
Qed.

Lemma classList_contains_remove_same (t : string) (cl : list string) :
  classList_contains t (classList_remove t cl) = false.
Proof.
  unfold classList_contains, classList_remove.
  induction cl as [|c cl IH]; simpl; [reflexivity|].
  destruct (String.eqb_spec c t) as [->|Hne]; simpl; [exact IH|].
  destruct (String.eqb_spec t c) as [e|_]; [now elim Hne | exact IH].
Qed.

Lemma classList_contains_remove_other (c t : string) (cl : list string) :
  c <> t ->
  classList_contains c (classList_remove t cl) = classList_contains c cl.
Proof.
  intros H. unfold classList_contains, classList_remove.
  induction cl as [|x cl IH]; simpl; [reflexivity|].
  destruct (String.eqb_spec x t) as [->|_]; simpl.
  - destruct (String.eqb_spec c t) as [e|_]; [now elim H | exact IH].
  - now rewrite IH.
Qed.

(** X18: when the wishlist request fails (no answer that reads as JSON, or
    an answer that does not report success), the heart icon, the colour of
    its button and the wishlist badge stay as they were, and one toast of
    type [error] is shown. *)
Theorem toggleWishlist_failure_keeps_page (productId : string)
  (isAdding : bool) (reply : Reply) (p : Page) :
  reply = ReplyFailed
  \/ (exists data, reply = ReplyJson data /\ success data = false) ->
  let p' := toggleWishlist productId isAdding reply p in
  icon_classes p' = icon_classes p
  /\ button_color p' = button_color p
  /\ wishlist_badge p' = wishlist_badge p
  /\ exists message, notifications p' = notifications p ++ [(message, "error")].
Proof.
  intros [-> | (data & -> & Hs)] p'; unfold p', toggleWishlist;
    cbv zeta; rewrite ?Hs; repeat split; now eexists.
Qed.

Lemma toggleWishlist_failure_keeps_page_witness :
  notifications
    (toggleWishlist "42" true
       (ReplyJson (mkWishlistData false (Some "Please log in") 0))
       (mkPage ["far"; "fa-heart"] "" [] None []))
  = [("Please log in", "error")].
Proof.
  destruct (toggleWishlist_failure_keeps_page "42" true
              (ReplyJson (mkWishlistData false (Some "Please log in") 0))
              (mkPage ["far"; "fa-heart"] "" [] None []))
    as (_ & _ & _ & message & H).
  - right. eexists. split; reflexivity.
  - reflexivity.
Defined.

(** X19: the wishlist button alternates. On an icon that carries [far], a
    click whose request succeeds posts to [/wishlist/add/] and turns the
    icon to [fas] and the button pink; the next click, its request
    succeeding too, posts to [/wishlist/remove/] and turns the icon back to
    [far] and the colour off. Every other class of the icon is kept. Each
    answer is taken to arrive before the next click. *)
Theorem wishlist_click_alternates (productId : string)
  (data1 data2 : WishlistData) (p : Page) :
  classList_contains "far" (icon_classes p) = true ->
  success data1 = true -> success data2 = true ->
  let p1 := wishlist_click productId (ReplyJson data1) p in
  let p2 := wishlist_click productId (ReplyJson data2) p1 in
  posted p2
  = posted p ++ [("/wishlist/add/", productId);
                 ("/wishlist/remove/", productId)]
  /\ classList_contains "fas" (icon_classes p1) = true
  /\ classList_contains "far" (icon_classes p1) = false
  /\ button_color p1 = "#ec4899"
  /\ classList_contains "far" (icon_classes p2) = true
  /\ classList_contains "fas" (icon_classes p2) = false
  /\ button_color p2 = ""
  /\ forall c, c <> "far" -> c <> "fas" ->
       classList_contains c (icon_classes p2)
       = classList_contains c (icon_classes p).
Proof.
  intros Hfar Hs1 Hs2 p1 p2.
  assert (E1 : p1 = updateWishlistCount (wishlist_count data1)
                 (showNotification "Added to wishlist!" "success"
                    (set_icon
                       (classList_add "fas"
                          (classList_remove "far" (icon_classes p)))
                       "#ec4899"
                       (post_request "/wishlist/add/" productId p)))).
  { unfold p1, wishlist_click, toggleWishlist. now rewrite Hfar, Hs1. }
  assert (F1 : classList_contains "far" (icon_classes p1) = false).
  { rewrite E1. cbn [icon_classes updateWishlistCount showNotification set_icon].
    rewrite classList_contains_add_other by discriminate.
    apply classList_contains_remove_same. }
  assert (E2 : p2 = updateWishlistCount (wishlist_count data2)
                 (showNotification "Removed from wishlist" "info"
                    (set_icon
                       (classList_add "far"
                          (classList_remove "fas" (icon_classes p1)))
                       ""
                       (post_request "/wishlist/remove/" productId p1)))).
  { unfold p2, wishlist_click, toggleWishlist. now rewrite F1, Hs2. }
  split.
  { rewrite E2.
    cbn [icon_classes button_color posted updateWishlistCount showNotification set_icon post_request].
    rewrite E1.
    cbn [icon_classes button_color posted updateWishlistCount showNotification set_icon post_request].
    now rewrite <- app_assoc. }
  split.
  { rewrite E1.
    cbn [icon_classes button_color posted updateWishlistCount showNotification set_icon post_request].
    apply classList_contains_add_same. }
  split; [exact F1|].
  split; [now rewrite E1|].
  split.
  { rewrite E2.
    cbn [icon_classes button_color posted updateWishlistCount showNotification set_icon post_request].
    apply classList_contains_add_same. }
  split.
  { rewrite E2. cbn [icon_classes updateWishlistCount showNotification set_icon].
    rewrite classList_contains_add_other by discriminate.
    apply classList_contains_remove_same. }
  split; [now rewrite E2|].
  intros c Hc1 Hc2. rewrite E2.
  cbn [icon_classes updateWishlistCount showNotification set_icon post_request].
  rewrite classList_contains_add_other, classList_contains_remove_other
    by assumption.
  rewrite E1.
  cbn [icon_classes updateWishlistCount showNotification set_icon post_request].
  now rewrite classList_contains_add_other, classList_contains_remove_other
    by assumption.
Qed.

Lemma wishlist_click_alternates_witness :
  posted
    (wishlist_click "42" (ReplyJson (mkWishlistData true None 0))
       (wishlist_click "42" (ReplyJson (mkWishlistData true None 1))
          (mkPage ["far"; "fa-heart"] "" [] None [])))
  = [("/wishlist/add/", "42"); ("/wishlist/remove/", "42")].
Proof.
  destruct (wishlist_click_alternates "42"
              (mkWishlistData true None 1) (mkWishlistData true None 0)
              (mkPage ["far"; "fa-heart"] "" [] None [])
              eq_refl eq_refl eq_refl) as (H & _).
  exact H.
Defined.
